(** * getMolecules.py: molecule partitioning of 10X linked reads

    A shallow embedding of [get_gemcode_regions] and [main] of
    [src/getMolecules.py], and the properties of the partitioner.

    Modelling choices.
    - A Python [int] is a [Z]; [len] of a list is a [nat].
    - A pysam read is a record of the three things the code asks of it:
      [reference_name], [reference_start] and the optional [RX] tag
      ([read.get_tag('RX')] raises [KeyError] when the tag is absent).
    - [gemcodes] is a [defaultdict(list)].  The code iterates over it at the
      end of the input, so the order of the keys is observable: it is an
      association list in insertion order (the order of a Python 3.7+ dict),
      and assigning to a key that is present keeps its place.
    - A generator is modelled by what its consumer observes: the list of the
      values yielded, and how it ended (exhausted, or an exception). *)

From Stdlib Require Import ZArith String Ascii Bool Lia List Permutation.
From Stdlib Require Import DecimalString DecimalPos DecimalZ Sorted.
Import ListNotations.

Local Open Scope string_scope.
Local Open Scope list_scope.
Local Open Scope Z_scope.

(** ** Data *)

(** [coords = namedtuple('coords', ['chr', 'pos'])] *)
Record coords : Type := mk_coords { chr : string; pos : Z }.

(** [molecule = namedtuple('molecule', ['chr','start','end','barcode','readcount'])] *)
Record molecule : Type := mk_molecule {
  m_chr : string;
  m_start : Z;
  m_end : Z;
  barcode : string;
  readcount : nat
}.

(** What the code reads of a pysam aligned segment. *)
Record read : Type := mk_read {
  reference_name : string;
  reference_start : Z;
  RX : option string
}.

(** The Python exceptions that the code can raise. *)
Inductive exn : Type :=
| KeyError      (* read.get_tag('RX') on a read without the tag *)
| IndexError    (* l[-1] or l[0] on an empty list *)
| ValueError    (* min([]) or max([]) *)
| NameError.    (* an unbound name *)

(** ** The dictionary [gemcodes] *)

(** An insertion-ordered dictionary with string keys. *)
Definition dict (V : Type) : Type := list (string * V).

Definition gemcodes_t : Type := dict (list coords).

(** [d.get(gem)], also deciding [gem in d]. *)
Fixpoint dict_get {V : Type} (gem : string) (d : dict V) : option V :=
  match d with
  | [] => None
  | (k, v) :: d' => if String.eqb k gem then Some v else dict_get gem d'
  end.

(** [d[gem] = v]: in place when the key is present, else at the end. *)
Fixpoint dict_set {V : Type} (gem : string) (v : V) (d : dict V) : dict V :=
  match d with
  | [] => [(gem, v)]
  | (k, w) :: d' =>
      if String.eqb k gem then (k, v) :: d' else (k, w) :: dict_set gem v d'
  end.

Definition keys {V : Type} (d : dict V) : list string := map fst d.

(** ** List primitives of Python used by the code *)

(** [l[-1]] *)
Fixpoint last_item (l : list coords) : option coords :=
  match l with
  | [] => None
  | [c] => Some c
  | _ :: l' => last_item l'
  end.

(** [min(ps)] and [max(ps)]; [None] stands for the [ValueError] on []. *)
Definition py_min (ps : list Z) : option Z :=
  match ps with
  | [] => None
  | p :: ps' => Some (fold_left Z.min ps' p)
  end.

Definition py_max (ps : list Z) : option Z :=
  match ps with
  | [] => None
  | p :: ps' => Some (fold_left Z.max ps' p)
  end.

(** ** The partitioner *)

(** [coords(read.reference_name, read.reference_start)] *)
Definition coords_of (r : read) : coords :=
  mk_coords (reference_name r) (reference_start r).

(** The expression yielded at lines 50-53 and at line 63:
    [molecule(run[0].chr, min([pos ...]), max([pos ...]), gem, len(run))].
    Its arguments are evaluated from left to right. *)
Definition close (gem : string) (run : list coords) : exn + molecule :=
  match run with
  | [] => inl IndexError
  | c0 :: _ =>
      match py_min (map pos run), py_max (map pos run) with
      | Some lo, Some hi => inr (mk_molecule (chr c0) lo hi gem (length run))
      | _, _ => inl ValueError
      end
  end.

(** The test of lines 47-48 once [gem in gemcodes] holds, [l] being
    [gemcodes[gem][-1]]. *)
Definition discontinuous (dist : Z) (l : coords) (r : read) : bool :=
  negb (String.eqb (chr l) (reference_name r))
  || (reference_start r - pos l >? dist).

(** One iteration of the loop of lines 41-59: the new dictionary and the
    values yielded, or the exception raised. *)
Definition step (dist : Z) (d : gemcodes_t) (r : read)
  : exn + (gemcodes_t * list molecule) :=
  match RX r with
  | None => inl KeyError
  | Some gem =>
      match dict_get gem d with
      | Some run =>
          match last_item run with
          | None => inl IndexError
          | Some l =>
              if discontinuous dist l r then
                match close gem run with
                | inl e => inl e
                | inr m => inr (dict_set gem [coords_of r] d, [m])
                end
              else inr (dict_set gem (run ++ [coords_of r]) d, [])
          end
      | None =>
          (* defaultdict: gemcodes[gem] is created empty, then appended to *)
          inr (dict_set gem ([] ++ [coords_of r]) d, [])
      end
  end.

(** The loop of lines 41-59 from dictionary [d]: the values yielded, and
    either the exception that ended it or the dictionary at the end. *)
Fixpoint for_reads (dist : Z) (d : gemcodes_t) (ibam : list read)
  : list molecule * (exn + gemcodes_t) :=
  match ibam with
  | [] => ([], inr d)
  | r :: ibam' =>
      match step dist d r with
      | inl e => ([], inl e)
      | inr (d', out) =>
          let (ys, res) := for_reads dist d' ibam' in (out ++ ys, res)
      end
  end.

(** The loop of lines 62-63: the values yielded and how it ended. *)
Fixpoint flush (d : gemcodes_t) : list molecule * option exn :=
  match d with
  | [] => ([], None)
  | (gem, run) :: d' =>
      match close gem run with
      | inl e => ([], Some e)
      | inr m => let (ys, res) := flush d' in (m :: ys, res)
      end
  end.

(** The generator body from dictionary [d]. *)
Definition regions_from (dist : Z) (d : gemcodes_t) (ibam : list read)
  : list molecule * option exn :=
  let (ys, res) := for_reads dist d ibam in
  match res with
  | inl e => (ys, Some e)
  | inr d' => let (zs, res') := flush d' in (ys ++ zs, res')
  end.

(** [get_gemcode_regions(ibam, dist)]: the molecules yielded, and [None]
    when the generator is exhausted or [Some e] when it raised [e]. *)
Definition get_gemcode_regions (ibam : list read) (dist : Z)
  : list molecule * option exn :=
  regions_from dist [] ibam.

(** The dictionaries that the loop can hold: those reached from the empty
    one by reading a prefix of some input. *)
Definition reachable (dist : Z) (d : gemcodes_t) : Prop :=
  exists ibam ys, for_reads dist [] ibam = (ys, inr d).

(** ** [main] *)

(** [str] of a Python int. *)
Definition str_of_Z (z : Z) : string := NilZero.string_of_int (Z.to_int z).

Definition tab : string := String (ascii_of_nat 9) EmptyString.
Definition newline : string := String (ascii_of_nat 10) EmptyString.

(** Line 82: ['{0}\t{1}\t{2}\t{3}\t{4}'.format(...)]. *)
Definition bed_str (bed : molecule) : string :=
  (m_chr bed ++ tab ++ str_of_Z (m_start bed) ++ tab ++ str_of_Z (m_end bed)
   ++ tab ++ barcode bed ++ tab ++ str_of_Z (Z.of_nat (readcount bed)))%string.

(** The names bound when line 88 runs: the locals of [main], and the names
    the module binds (its imports and its two functions).  The builtins are
    left out: none of them has a one-letter name. *)
Definition main_locals : list string :=
  ["parser"; "args"; "fout"; "bed"; "bed_str"].

Definition module_globals : list string :=
  ["argparse"; "defaultdict"; "Counter"; "namedtuple"; "pysam";
   "get_gemcode_regions"; "main"].

Definition bound (name : string) : bool :=
  existsb (String.eqb name) (main_locals ++ module_globals).

(** Evaluating a name raises [NameError] when it is unbound. *)
Definition load_name (name : string) : option exn :=
  if bound name then None else Some NameError.

(** [main] with the command line parsed: the strings written to [fout], in
    order, and how [main] ended ([None]: it returned). *)
Definition main (ibam : list read) (dist : Z) : list string * option exn :=
  let (beds, res) := get_gemcode_regions ibam dist in
  let written := map (fun bed => (bed_str bed ++ newline)%string) beds in
  match res with
  | Some e => (written, Some e)
  | None => (written, load_name "f")      (* f.close() *)
  end.

(** ** Vocabulary of the properties *)

Definition rd (c : string) (p : Z) (b : string) : read := mk_read c p (Some b).

(** The read carries an RX tag. *)
Definition tagged (r : read) : Prop := RX r <> None.

(** The read carries barcode [b]. *)
Definition has_barcode (b : string) (r : read) : bool :=
  match RX r with
  | Some g => String.eqb g b
  | None => false
  end.

Definition is_barcode (b : string) (m : molecule) : bool :=
  String.eqb (barcode m) b.

(** A run of reads: a barcode and the reads folded under it, in the order
    of their arrival. *)
Definition group : Type := (string * list read)%type.

Definition reads_of (gs : list group) : list read := concat (map snd gs).

(** The dictionary that holds the coordinates of the runs [gs]. *)
Definition erase (gs : dict (list read)) : gemcodes_t :=
  map (fun g => (fst g, map coords_of (snd g))) gs.

(** A run is not empty, its reads carry its barcode and share one
    reference name. *)
Definition group_ok (g : group) : Prop :=
  snd g <> [] /\
  exists c, Forall (fun r => RX r = Some (fst g) /\ reference_name r = c) (snd g).

(** Molecule [m] is what the code yields when it closes the run [g]. *)
Definition summarises (m : molecule) (g : group) : Prop :=
  close (fst g) (map coords_of (snd g)) = inr m.

Definition total_readcount (ms : list molecule) : nat :=
  fold_right (fun m n => (readcount m + n)%nat) 0%nat ms.

(** The open run of barcode [b] alone. *)
Definition only (b : string) (d : gemcodes_t) : gemcodes_t :=
  match dict_get b d with
  | Some run => [(b, run)]
  | None => []
  end.

(** What the loop maintains of the dictionary itself: a key occurs once, and
    no run is empty. *)
Definition dict_ok (d : gemcodes_t) : Prop :=
  NoDup (keys d) /\ Forall (fun e => snd e <> []) d.

(** [l] interleaves [xs] and [ys]: it holds the elements of both, each list
    in its own order. *)
Inductive Interleave {A : Type} : list A -> list A -> list A -> Prop :=
| il_nil : Interleave [] [] []
| il_left x xs ys l : Interleave xs ys l -> Interleave (x :: xs) ys (x :: l)
| il_right y xs ys l : Interleave xs ys l -> Interleave xs (y :: ys) (y :: l).

(** The barcodes of the reads, in order; a read without a tag has none. *)
Definition barcodes_of (ibam : list read) : list string :=
  flat_map (fun r => match RX r with Some b => [b] | None => [] end) ibam.

(** [k in ks] *)
Definition mem (k : string) (ks : list string) : bool := existsb (String.eqb k) ks.

(** The distinct elements of a list, each at its first occurrence. *)
Fixpoint first_seen (bs : list string) : list string :=
  match bs with
  | [] => []
  | b :: bs' => b :: filter (fun k => negb (String.eqb k b)) (first_seen bs')
  end.

(** Each read of [g] but the first passes the continuity test against the
    read before it. *)
Fixpoint chained (dist : Z) (g : list read) : Prop :=
  match g with
  | x :: (y :: _) as g' => discontinuous dist (coords_of x) y = false /\ chained dist g'
  | _ => True
  end.

(** Each run but the first starts with a read that fails the continuity
    test against the last read of the run before it. *)
Fixpoint broken (dist : Z) (runs : list (list read)) : Prop :=
  match runs with
  | g :: (g' :: _) as runs' =>
      (exists x y, last_item (map coords_of g) = Some (coords_of x) /\
                   hd_error g' = Some y /\
                   discontinuous dist (coords_of x) y = true) /\
      broken dist runs'
  | _ => True
  end.

(** The reads of one barcode cut into runs: [cur] is the run in progress,
    [prev] its last read. *)
Fixpoint runs_from (dist : Z) (cur : list read) (prev : read) (l : list read)
  : list (list read) :=
  match l with
  | [] => [cur]
  | r :: l' =>
      if discontinuous dist (coords_of prev) r
      then cur :: runs_from dist [r] r l'
      else runs_from dist (cur ++ [r]) r l'
  end.

Definition split_runs (dist : Z) (l : list read) : list (list read) :=
  match l with
  | [] => []
  | r :: l' => runs_from dist [r] r l'
  end.

(** Molecules listed in the order of the genome: each ends no later than
    the next starts, and more than [dist] before it when both are on the
    same reference. *)
Fixpoint separated (dist : Z) (ms : list molecule) : Prop :=
  match ms with
  | m :: (m' :: _) as ms' =>
      (m_end m <= m_start m' /\
       (m_chr m = m_chr m' -> dist < m_start m' - m_end m)) /\
      separated dist ms'
  | _ => True
  end.

(** The string holds a tab. *)
Fixpoint has_tab (s : string) : bool :=
  match s with
  | EmptyString => false
  | String a s' => Ascii.eqb a (ascii_of_nat 9) || has_tab s'
  end.

(** The number of reads of [l], [prev] coming before them, that fail the
    continuity test against the read before. *)
Fixpoint breaks (dist : Z) (prev : read) (l : list read) : nat :=
  match l with
  | [] => 0
  | r :: l' =>
      ((if discontinuous dist (coords_of prev) r then 1 else 0) + breaks dist r l')%nat
  end.

(** The last entry of the run of each key. *)
Definition lasts (d : gemcodes_t) : dict (option coords) :=
  map (fun e => (fst e, last_item (snd e))) d.

(** Case analysis on an interleaving of two given lists. *)
Ltac invert_interleave :=
  repeat match goal with
         | H : Interleave _ _ _ |- _ => inversion H; clear H; subst
         end.

(** ** Sample runs *)

Example ex_split :
  get_gemcode_regions [rd "chr1" 100 "AA"; rd "chr1" 140 "AA"; rd "chr1" 300 "AA"] 50
  = ([mk_molecule "chr1" 100 140 "AA" 2; mk_molecule "chr1" 300 300 "AA" 1], None).
Proof. reflexivity. Qed.

Example ex_cross_contig dist :
  get_gemcode_regions [rd "chr1" 100 "BB"; rd "chr2" 100 "BB"] dist
  = ([mk_molecule "chr1" 100 100 "BB" 1; mk_molecule "chr2" 100 100 "BB" 1], None).
Proof. reflexivity. Qed.

Example ex_main :
  main [rd "chr1" 100 "AA"; rd "chr1" (-1) "AA"] 50
  = ([("chr1" ++ tab ++ "-1" ++ tab ++ "100" ++ tab ++ "AA" ++ tab ++ "2" ++ newline)%string],
     Some NameError).
Proof. reflexivity. Qed.

(** ** The dictionary *)

Section Dict.
Context {V : Type}.
Implicit Types (d : dict V) (v w : V) (g k : string).

Lemma dict_get_set_same g v d : dict_get g (dict_set g v d) = Some v.
Proof.
  induction d as [|[k w] d IH]; simpl.
  - now rewrite String.eqb_refl.
  - destruct (String.eqb k g) eqn:E; simpl; now rewrite E.
Qed.

Lemma dict_get_set_other g k v d :
  g <> k -> dict_get k (dict_set g v d) = dict_get k d.
Proof.
  intros Hne. induction d as [|[k' w] d IH]; simpl.
  - destruct (String.eqb g k) eqn:E; [apply String.eqb_eq in E; contradiction | reflexivity].
  - destruct (String.eqb k' g) eqn:E; simpl.
    + apply String.eqb_eq in E; subst k'.
      destruct (String.eqb g k) eqn:E'; [apply String.eqb_eq in E'; contradiction | reflexivity].
    + now rewrite IH.
Qed.

Lemma dict_set_absent g v d :
  dict_get g d = None -> dict_set g v d = d ++ [(g, v)].
Proof.
  induction d as [|[k w] d IH]; simpl; [reflexivity|].
  destruct (String.eqb k g); [discriminate|]. intros H. now rewrite IH.
Qed.

Lemma keys_set_present g v w d :
  dict_get g d = Some w -> keys (dict_set g v d) = keys d.
Proof.
  unfold keys. induction d as [|[k w'] d IH]; simpl; [discriminate|].
  destruct (String.eqb k g); simpl; [reflexivity|]. intros H. now rewrite IH.
Qed.

Lemma dict_get_In g v d : dict_get g d = Some v -> In (g, v) d.
Proof.
  induction d as [|[k w] d IH]; simpl; [discriminate|].
  destruct (String.eqb k g) eqn:E.
  - apply String.eqb_eq in E. intros [= ->]. left. now subst.
  - intros H. right. auto.
Qed.

Lemma dict_get_None_keys g d : dict_get g d = None -> ~ In g (keys d).
Proof.
  unfold keys. induction d as [|[k w] d IH]; simpl; [tauto|].
  destruct (String.eqb k g) eqn:E; [discriminate|].
  apply String.eqb_neq in E. intros H [H1|H1]; [contradiction | now apply IH].
Qed.

Lemma Forall_dict_set (P : string * V -> Prop) g v d :
  Forall P d -> P (g, v) -> Forall P (dict_set g v d).
Proof.
  intros Hd Hv. induction Hd as [|[k w] d Hk Hd IH]; simpl.
  - now constructor.
  - destruct (String.eqb k g) eqn:E.
    + apply String.eqb_eq in E; subst k. now constructor.
    + now constructor.
Qed.

Lemma NoDup_keys_set g v d : NoDup (keys d) -> NoDup (keys (dict_set g v d)).
Proof.
  intros Hd. destruct (dict_get g d) as [w|] eqn:E.
  - now rewrite (keys_set_present _ _ _ _ E).
  - rewrite (dict_set_absent _ _ _ E). unfold keys. rewrite map_app. simpl.
    apply NoDup_app; [exact Hd | repeat constructor; simpl; tauto |].
    intros x Hx [<-|[]]. now apply (dict_get_None_keys _ _ E).
Qed.
End Dict.

(** ** Lists: last item, minimum and maximum *)

Lemma last_item_app (l : list coords) (c : coords) : last_item (l ++ [c]) = Some c.
Proof.
  induction l as [|a l IH]; simpl; [reflexivity|].
  rewrite IH. now destruct (l ++ [c]) eqn:E; [destruct l; discriminate|].
Qed.

Lemma last_item_some (l : list coords) : l <> [] -> exists c, last_item l = Some c /\ In c l.
Proof.
  induction l as [|a l IH]; [congruence|]. intros _.
  destruct l as [|b l].
  - exists a. simpl. auto.
  - destruct IH as (c & Hc & Hin); [discriminate|].
    exists c. split; [exact Hc | now right].
Qed.

Lemma last_item_nonempty (l : list coords) (c : coords) : last_item l = Some c -> l <> [].
Proof. destruct l; simpl; congruence. Qed.

Lemma fold_min_spec (ps : list Z) (p : Z) :
  In (fold_left Z.min ps p) (p :: ps) /\
  forall q, In q (p :: ps) -> fold_left Z.min ps p <= q.
Proof.
  revert p. induction ps as [|a ps IH]; intros p; simpl.
  - split; [now left | intros q [<-|[]]; lia].
  - destruct (IH (Z.min p a)) as [Hin Hle]. split.
    + destruct Hin as [Hin|Hin]; [|now right; right].
      rewrite <- Hin. destruct (Z.min_spec p a) as [[_ ->]|[_ ->]]; auto.
    + intros q Hq.
      assert (Hm : fold_left Z.min ps (Z.min p a) <= Z.min p a) by (apply Hle; now left).
      destruct Hq as [<-|[<-|Hq]]; [lia | lia | apply Hle; now right].
Qed.

Lemma fold_max_spec (ps : list Z) (p : Z) :
  In (fold_left Z.max ps p) (p :: ps) /\
  forall q, In q (p :: ps) -> q <= fold_left Z.max ps p.
Proof.
  revert p. induction ps as [|a ps IH]; intros p; simpl.
  - split; [now left | intros q [<-|[]]; lia].
  - destruct (IH (Z.max p a)) as [Hin Hle]. split.
    + destruct Hin as [Hin|Hin]; [|now right; right].
      rewrite <- Hin. destruct (Z.max_spec p a) as [[_ ->]|[_ ->]]; auto.
    + intros q Hq.
      assert (Hm : Z.max p a <= fold_left Z.max ps (Z.max p a)) by (apply Hle; now left).
      destruct Hq as [<-|[<-|Hq]]; [lia | lia | apply Hle; now right].
Qed.

(** ** Closing a run *)

Lemma close_nonempty (gem : string) (run : list coords) :
  run <> [] -> exists m, close gem run = inr m.
Proof. destruct run as [|c run]; [congruence|]. intros _. simpl. eauto. Qed.

Lemma close_inv (gem : string) (run : list coords) (m : molecule) :
  close gem run = inr m ->
  exists c0 rest, run = c0 :: rest /\
    m = mk_molecule (chr c0) (fold_left Z.min (map pos rest) (pos c0))
                    (fold_left Z.max (map pos rest) (pos c0)) gem (length run).
Proof.
  destruct run as [|c0 rest]; simpl; [discriminate|].
  intros [= <-]. now exists c0, rest.
Qed.

Lemma close_barcode (gem : string) (run : list coords) (m : molecule) :
  close gem run = inr m -> barcode m = gem.
Proof. intros H. apply close_inv in H as (c0 & rest & _ & ->). reflexivity. Qed.

Lemma close_readcount (gem : string) (run : list coords) (m : molecule) :
  close gem run = inr m -> readcount m = length run.
Proof. intros H. apply close_inv in H as (c0 & rest & _ & ->). reflexivity. Qed.

Lemma close_interval (gem : string) (run : list coords) (m : molecule) :
  close gem run = inr m ->
  In (m_start m) (map pos run) /\ In (m_end m) (map pos run) /\
  forall p, In p (map pos run) -> m_start m <= p <= m_end m.
Proof.
  intros H. apply close_inv in H as (c0 & rest & -> & ->). simpl m_start. simpl m_end.
  change (map pos (c0 :: rest)) with (pos c0 :: map pos rest).
  destruct (fold_min_spec (map pos rest) (pos c0)) as [Hi Hl].
  destruct (fold_max_spec (map pos rest) (pos c0)) as [Hi' Hl'].
  repeat split; auto.
Qed.

(** ** Runs of reads behind the dictionary *)

Lemma erase_get (gem : string) (gd : dict (list read)) :
  dict_get gem (erase gd) = option_map (map coords_of) (dict_get gem gd).
Proof.
  induction gd as [|[k g] gd IH]; simpl; [reflexivity|].
  now destruct (String.eqb k gem).
Qed.

Lemma erase_set (gem : string) (g : list read) (gd : dict (list read)) :
  erase (dict_set gem g gd) = dict_set gem (map coords_of g) (erase gd).
Proof.
  induction gd as [|[k w] gd IH]; simpl; [reflexivity|].
  destruct (String.eqb k gem); simpl; [reflexivity | now rewrite IH].
Qed.

Lemma reads_of_app (gs hs : list group) : reads_of (gs ++ hs) = reads_of gs ++ reads_of hs.
Proof. unfold reads_of. now rewrite map_app, concat_app. Qed.

Lemma reads_of_set (gem : string) (g w : list read) (gd : dict (list read)) :
  dict_get gem gd = Some w ->
  Permutation (w ++ reads_of (dict_set gem g gd)) (g ++ reads_of gd).
Proof.
  unfold reads_of. induction gd as [|[k w'] gd IH]; simpl; [discriminate|].
  destruct (String.eqb k gem); simpl.
  - intros [= ->]. rewrite !app_assoc. apply Permutation_app_tail, Permutation_app_comm.
  - intros H. specialize (IH H).
    rewrite (app_assoc w), (Permutation_app_comm w w'), <- app_assoc, IH.
    rewrite !app_assoc. apply Permutation_app_tail, Permutation_app_comm.
Qed.

Lemma group_ok_single (gem : string) (r : read) : RX r = Some gem -> group_ok (gem, [r]).
Proof.
  intros H. split; [discriminate|]. exists (reference_name r). simpl. now repeat constructor.
Qed.

Lemma group_ok_last (gem : string) (g : list read) :
  group_ok (gem, g) ->
  exists l c0 rest, g = c0 :: rest /\ In l g /\
    last_item (map coords_of g) = Some (coords_of l) /\
    Forall (fun r => RX r = Some gem /\ reference_name r = reference_name l) g.
Proof.
  intros [Hne [c Hc]]. simpl in *.
  destruct (last_item_some (map coords_of g)) as (cl & Hl & Hin).
  { destruct g; [congruence | discriminate]. }
  apply in_map_iff in Hin as (l & <- & Hin).
  destruct g as [|c0 rest]; [congruence|].
  exists l, c0, rest. repeat split; auto.
  rewrite Forall_forall in Hc. apply Forall_forall. intros r Hr.
  destruct (Hc r Hr), (Hc l Hin). split; congruence.
Qed.

Lemma discontinuous_false (dist : Z) (l : coords) (r : read) :
  discontinuous dist l r = false <->
  chr l = reference_name r /\ reference_start r - pos l <= dist.
Proof.
  unfold discontinuous. rewrite orb_false_iff, negb_false_iff, String.eqb_eq.
  rewrite Z.gtb_ltb, Z.ltb_ge. tauto.
Qed.

Lemma discontinuous_true (dist : Z) (l : coords) (r : read) :
  discontinuous dist l r = true <->
  chr l <> reference_name r \/ reference_start r - pos l > dist.
Proof.
  unfold discontinuous. rewrite orb_true_iff, negb_true_iff, String.eqb_neq.
  rewrite Z.gtb_ltb, Z.ltb_lt. intuition lia.
Qed.

(** One iteration, seen on the runs of reads: the read joins the run of its
    barcode, or that run is closed and the read starts the next one. *)
Lemma step_ghost (dist : Z) (gd : dict (list read)) (r : read) (gem : string) :
  Forall group_ok gd -> RX r = Some gem ->
  exists gd' closed ms,
    step dist (erase gd) r = inr (erase gd', ms) /\
    Forall2 summarises ms closed /\ Forall group_ok closed /\
    Forall group_ok gd' /\
    Permutation (reads_of closed ++ reads_of gd') (reads_of gd ++ [r]).
Proof.
  intros Hgd Hr. unfold step. rewrite Hr, erase_get.
  destruct (dict_get gem gd) as [g|] eqn:E; simpl.
  - assert (Hg : group_ok (gem, g)).
    { rewrite Forall_forall in Hgd. apply Hgd. now apply dict_get_In. }
    destruct (group_ok_last _ _ Hg) as (l & c0 & rest & Hc0 & Hin & Hl & Hall).
    rewrite Hl. destruct (discontinuous dist (coords_of l) r) eqn:D.
    + destruct (close_nonempty gem (map coords_of g)) as [m Hm].
      { subst g. discriminate. }
      rewrite Hm. exists (dict_set gem [r] gd), [(gem, g)], [m].
      rewrite erase_set. simpl. repeat split.
      * constructor; [exact Hm | constructor].
      * now constructor.
      * apply Forall_dict_set; [exact Hgd | now apply group_ok_single].
      * unfold reads_of at 1. simpl. rewrite app_nil_r.
        rewrite (reads_of_set gem [r] g gd E). apply Permutation_app_comm.
    + exists (dict_set gem (g ++ [r]) gd), [], [].
      rewrite erase_set, map_app. simpl. repeat split.
      * constructor.
      * constructor.
      * apply Forall_dict_set; [exact Hgd|]. split.
        { simpl. now destruct g. }
        exists (reference_name l). simpl. apply Forall_app. split; [exact Hall|].
        apply discontinuous_false in D as [D _]. simpl in D.
        constructor; [split; congruence | constructor].
      * apply Permutation_app_inv_l with (l := g).
        rewrite (reads_of_set gem (g ++ [r]) g gd E).
        rewrite <- !app_assoc. apply Permutation_app_head, Permutation_app_comm.
  - exists (dict_set gem [r] gd), [], []. rewrite erase_set. simpl. repeat split.
    + constructor.
    + constructor.
    + apply Forall_dict_set; [exact Hgd | now apply group_ok_single].
    + rewrite (dict_set_absent _ _ _ E), reads_of_app. unfold reads_of at 2. simpl.
      reflexivity.
Qed.

Lemma step_untagged (dist : Z) (d : gemcodes_t) (r : read) :
  RX r = None -> step dist d r = inl KeyError.
Proof. intros H. unfold step. now rewrite H. Qed.

(** ** The loop over the reads *)

Lemma for_reads_cons (dist : Z) (d d' : gemcodes_t) (r : read) (ibam : list read)
      (out : list molecule) :
  step dist d r = inr (d', out) ->
  for_reads dist d (r :: ibam)
  = (out ++ fst (for_reads dist d' ibam), snd (for_reads dist d' ibam)).
Proof. intros H. simpl. rewrite H. now destruct (for_reads dist d' ibam). Qed.

Lemma for_reads_app (dist : Z) (pre post : list read) (d : gemcodes_t) :
  for_reads dist d (pre ++ post)
  = match for_reads dist d pre with
    | (ys, inr d') =>
        (ys ++ fst (for_reads dist d' post), snd (for_reads dist d' post))
    | (ys, inl e) => (ys, inl e)
    end.
Proof.
  revert d. induction pre as [|r pre IH]; intros d; simpl.
  - now destruct (for_reads dist d post).
  - destruct (step dist d r) as [e|[d' out]]; [reflexivity|].
    rewrite IH. destruct (for_reads dist d' pre) as [ys [e|d'']]; [reflexivity|].
    simpl. now rewrite app_assoc.
Qed.

(** The loop ends normally exactly on inputs whose reads all carry a tag;
    it then leaves well-formed runs, and the closed and the open runs
    together hold every read once. *)
Lemma for_reads_ghost (dist : Z) (ibam : list read) :
  forall gd, Forall group_ok gd -> Forall tagged ibam ->
  exists gd' closed ms,
    for_reads dist (erase gd) ibam = (ms, inr (erase gd')) /\
    Forall2 summarises ms closed /\ Forall group_ok closed /\
    Forall group_ok gd' /\
    Permutation (reads_of closed ++ reads_of gd') (reads_of gd ++ ibam).
Proof.
  induction ibam as [|r ibam IH]; intros gd Hgd Ht.
  - exists gd, [], []. simpl. repeat split; auto. now rewrite app_nil_r.
  - inversion Ht as [|? ? Hr Ht']; subst.
    destruct (RX r) as [gem|] eqn:Er; [|now elim Hr].
    destruct (step_ghost dist gd r gem Hgd Er) as (gd1 & c1 & m1 & Hs & Hc1 & Hok1 & Hgd1 & P1).
    destruct (IH gd1 Hgd1 Ht') as (gd2 & c2 & m2 & Hf & Hc2 & Hok2 & Hgd2 & P2).
    exists gd2, (c1 ++ c2), (m1 ++ m2).
    rewrite (for_reads_cons _ _ _ _ _ _ Hs), Hf. simpl. repeat split.
    + now apply Forall2_app.
    + apply Forall_app. now split.
    + exact Hgd2.
    + rewrite reads_of_app, <- app_assoc, P2, app_assoc, P1, <- app_assoc. reflexivity.
Qed.

Lemma for_reads_ok_inv (dist : Z) (ibam : list read) :
  forall gd ys d, Forall group_ok gd ->
  for_reads dist (erase gd) ibam = (ys, inr d) -> Forall tagged ibam.
Proof.
  induction ibam as [|r ibam IH]; intros gd ys d Hgd H; [constructor|].
  destruct (RX r) as [gem|] eqn:Er.
  - destruct (step_ghost dist gd r gem Hgd Er) as (gd1 & c1 & m1 & Hs & _ & _ & Hgd1 & _).
    rewrite (for_reads_cons _ _ _ _ _ _ Hs) in H.
    constructor; [unfold tagged; congruence|].
    destruct (for_reads dist (erase gd1) ibam) as [zs res] eqn:Ef. simpl in H.
    injection H as _ ->. eapply IH; eauto.
  - simpl in H. rewrite (step_untagged _ _ _ Er) in H. discriminate.
Qed.

Lemma flush_ghost (gd : dict (list read)) :
  Forall group_ok gd ->
  exists ms, flush (erase gd) = (ms, None) /\ Forall2 summarises ms gd.
Proof.
  induction 1 as [|[gem g] gd Hg Hgd (ms & Hf & Hs)]; simpl.
  - exists []. split; [reflexivity | constructor].
  - destruct (close_nonempty gem (map coords_of g)) as [m Hm].
    { destruct Hg as [Hne _]. simpl in Hne. now destruct g. }
    rewrite Hm, Hf. exists (m :: ms). split; [reflexivity|]. now constructor.
Qed.

(** The generator on a stream of tagged reads: it is exhausted without an
    exception, and what it yields summarises runs that partition the input. *)
Lemma regions_partition (dist : Z) (ibam : list read) :
  Forall tagged ibam ->
  exists ms gs,
    get_gemcode_regions ibam dist = (ms, None) /\
    Forall2 summarises ms gs /\ Forall group_ok gs /\
    Permutation (reads_of gs) ibam.
Proof.
  intros Ht.
  destruct (for_reads_ghost dist ibam [] (Forall_nil _) Ht)
    as (gd' & closed & ms & Hf & Hc & Hok & Hgd' & P).
  destruct (flush_ghost gd' Hgd') as (zs & Hz & Hs).
  exists (ms ++ zs), (closed ++ gd').
  cbn [erase map] in Hf.
  unfold get_gemcode_regions, regions_from. rewrite Hf, Hz.
  repeat split.
  - now apply Forall2_app.
  - apply Forall_app. now split.
  - rewrite reads_of_app. exact P.
Qed.

Lemma reachable_ghost (dist : Z) (d : gemcodes_t) :
  reachable dist d -> exists gd, d = erase gd /\ Forall group_ok gd.
Proof.
  intros (ibam & ys & H).
  assert (Ht : Forall tagged ibam).
  { eapply (for_reads_ok_inv dist ibam []); [constructor | exact H]. }
  destruct (for_reads_ghost dist ibam [] (Forall_nil _) Ht)
    as (gd' & closed & ms & Hf & _ & _ & Hgd' & _).
  cbn [erase map] in Hf. rewrite H in Hf. injection Hf as _ ->. now exists gd'.
Qed.

(** ** One barcode at a time *)

Lemma regions_from_cons (dist : Z) (d d' : gemcodes_t) (r : read) (ibam : list read)
      (out : list molecule) :
  step dist d r = inr (d', out) ->
  regions_from dist d (r :: ibam)
  = (out ++ fst (regions_from dist d' ibam), snd (regions_from dist d' ibam)).
Proof.
  intros H. unfold regions_from. rewrite (for_reads_cons _ _ _ _ _ _ H).
  destruct (for_reads dist d' ibam) as [ys [e|d'']]; simpl; [reflexivity|].
  destruct (flush d'') as [zs res]. simpl. now rewrite app_assoc.
Qed.

(** An iteration looks at the dictionary through the key of its read only. *)
Lemma step_cong (dist : Z) (d1 d2 : gemcodes_t) (r : read) (gem : string) :
  RX r = Some gem -> dict_get gem d1 = dict_get gem d2 ->
  Forall (fun e => snd e <> []) d1 ->
  exists v out, v <> [] /\ Forall (fun m => barcode m = gem) out /\
    step dist d1 r = inr (dict_set gem v d1, out) /\
    step dist d2 r = inr (dict_set gem v d2, out).
Proof.
  intros Hr Hg Hne. unfold step. rewrite Hr, <- Hg.
  destruct (dict_get gem d1) as [run|] eqn:E.
  - assert (Hrun : run <> []).
    { rewrite Forall_forall in Hne. apply (Hne (gem, run)). now apply dict_get_In. }
    destruct (last_item_some run Hrun) as (l & -> & _).
    destruct (discontinuous dist l r).
    + destruct (close_nonempty gem run Hrun) as [m Hm]. rewrite Hm.
      exists [coords_of r], [m]. repeat split; try discriminate.
      constructor; [now apply close_barcode in Hm | constructor].
    + exists (run ++ [coords_of r]), []. repeat split; [now destruct run | constructor].
  - exists [coords_of r], []. repeat split; [discriminate | constructor].
Qed.

Lemma dict_ok_set (gem : string) (v : list coords) (d : gemcodes_t) :
  dict_ok d -> v <> [] -> dict_ok (dict_set gem v d).
Proof.
  intros [Hk Hne] Hv. split; [now apply NoDup_keys_set | now apply Forall_dict_set].
Qed.

Lemma only_get (b : string) (d : gemcodes_t) : dict_get b (only b d) = dict_get b d.
Proof.
  unfold only. destruct (dict_get b d) eqn:E; simpl; [|reflexivity].
  now rewrite String.eqb_refl.
Qed.

Lemma only_set_same (b : string) (v : list coords) (d : gemcodes_t) :
  only b (dict_set b v d) = dict_set b v (only b d).
Proof.
  unfold only. rewrite dict_get_set_same.
  destruct (dict_get b d); simpl; [now rewrite String.eqb_refl | reflexivity].
Qed.

Lemma only_set_other (b gem : string) (v : list coords) (d : gemcodes_t) :
  gem <> b -> only b (dict_set gem v d) = only b d.
Proof. intros H. unfold only. now rewrite dict_get_set_other. Qed.

Lemma keys_dict_get_None (b : string) (d : gemcodes_t) :
  ~ In b (keys d) -> dict_get b d = None.
Proof.
  induction d as [|[k w] d IH]; simpl; [reflexivity|]. intros H.
  destruct (String.eqb k b) eqn:E.
  - apply String.eqb_eq in E. tauto.
  - apply IH. tauto.
Qed.

Lemma flush_only (b : string) (d : gemcodes_t) :
  dict_ok d ->
  fst (flush (only b d)) = filter (is_barcode b) (fst (flush d)) /\
  snd (flush d) = None.
Proof.
  intros [Hk Hne]. induction d as [|[k run] d IH]; [now split|].
  inversion Hk as [|? ? Hnin Hk']; inversion Hne as [|? ? Hrun Hne']; subst.
  destruct (IH Hk' Hne') as [IH1 IH2]. simpl in Hrun.
  destruct (close_nonempty k run Hrun) as [m Hm].
  pose proof (close_barcode _ _ _ Hm) as Hb.
  simpl. rewrite Hm. destruct (flush d) as [ys res] eqn:Ef. simpl in *.
  split; [|exact IH2].
  unfold only, is_barcode at 1. simpl. rewrite Hb. clear Hb.
  destruct (String.eqb k b) eqn:E.
  - apply String.eqb_eq in E; subst k. simpl. rewrite Hm, <- IH1.
    unfold only. now rewrite (keys_dict_get_None _ _ Hnin).
  - exact IH1.
Qed.

Lemma filter_barcode_all (b : string) (out : list molecule) :
  Forall (fun m => barcode m = b) out -> filter (is_barcode b) out = out.
Proof.
  induction 1 as [|m out Hm Hout IH]; simpl; [reflexivity|].
  unfold is_barcode at 1. now rewrite Hm, String.eqb_refl, IH.
Qed.

Lemma filter_barcode_none (b gem : string) (out : list molecule) :
  Forall (fun m => barcode m = gem) out -> gem <> b -> filter (is_barcode b) out = [].
Proof.
  intros Hout Hne. induction Hout as [|m out Hm Hout IH]; simpl; [reflexivity|].
  unfold is_barcode at 1. rewrite Hm. apply String.eqb_neq in Hne. now rewrite Hne.
Qed.

(** The molecules of barcode [b] are those that the generator yields on
    the reads of barcode [b] alone, in the same order. *)
Lemma regions_only (dist : Z) (b : string) (ibam : list read) :
  forall d, dict_ok d -> Forall tagged ibam ->
  filter (is_barcode b) (fst (regions_from dist d ibam))
  = fst (regions_from dist (only b d) (filter (has_barcode b) ibam)) /\
  snd (regions_from dist d ibam) = None.
Proof.
  induction ibam as [|r ibam IH]; intros d Hd Ht.
  - unfold regions_from. simpl. destruct (flush_only b d Hd) as [H1 H2].
    destruct (flush d) as [ys res]; destruct (flush (only b d)) as [zs res'].
    simpl in *. now split.
  - inversion Ht as [|? ? Hr Ht']; subst.
    destruct (RX r) as [gem|] eqn:Er; [|now elim Hr].
    destruct (String.eqb gem b) eqn:E.
    + apply String.eqb_eq in E; subst gem.
      destruct (step_cong dist d (only b d) r b Er (eq_sym (only_get b d)) (proj2 Hd))
        as (v & out & Hv & Hout & Hs1 & Hs2).
      destruct (IH (dict_set b v d) (dict_ok_set _ _ _ Hd Hv) Ht') as [IH1 IH2].
      simpl filter. unfold has_barcode at 1. rewrite Er, String.eqb_refl.
      rewrite (regions_from_cons _ _ _ _ _ _ Hs1), (regions_from_cons _ _ _ _ _ _ Hs2).
      simpl. rewrite filter_app, IH1, only_set_same. split; [|exact IH2].
      f_equal. now apply filter_barcode_all.
    + destruct (step_cong dist d d r gem Er eq_refl (proj2 Hd))
        as (v & out & Hv & Hout & Hs1 & _).
      destruct (IH (dict_set gem v d) (dict_ok_set _ _ _ Hd Hv) Ht') as [IH1 IH2].
      simpl filter. unfold has_barcode at 1. rewrite Er, E.
      rewrite (regions_from_cons _ _ _ _ _ _ Hs1). simpl.
      apply String.eqb_neq in E.
      rewrite filter_app, IH1, only_set_other by exact E. split; [|exact IH2].
      now rewrite (filter_barcode_none b gem out Hout E).
Qed.

(** ** Conservation and intervals *)

Lemma summarises_readcount (ms : list molecule) (gs : list group) :
  Forall2 summarises ms gs ->
  map readcount ms = map (fun g => length (snd g)) gs /\
  total_readcount ms = length (reads_of gs).
Proof.
  unfold reads_of. induction 1 as [|m g ms gs Hm _ [IH1 IH2]]; simpl; [now split|].
  apply close_readcount in Hm. rewrite length_map in Hm.
  rewrite length_app, Hm, IH1, IH2. now split.
Qed.

Lemma has_barcode_RX (b : string) (r : read) : has_barcode b r = true <-> RX r = Some b.
Proof.
  unfold has_barcode. destruct (RX r) as [g|]; [|split; discriminate].
  rewrite String.eqb_eq. split; congruence.
Qed.

Lemma regions_single (dist : Z) (r : read) (b : string) :
  RX r = Some b ->
  regions_from dist [] [r]
  = ([mk_molecule (reference_name r) (reference_start r) (reference_start r) b 1], None).
Proof.
  intros H. unfold regions_from. simpl. unfold step. rewrite H. simpl. reflexivity.
Qed.

(** C1. Conservation: on every finite input whose reads all carry a barcode,
    the generator is exhausted without an exception and the readcounts of
    the molecules it yields add up to the number of reads; the molecules
    are the summaries of runs that hold every read of the input once,
    each with the length of its run as readcount. *)
Theorem conservation (ibam : list read) (dist : Z) :
  Forall tagged ibam ->
  exists ms gs,
    get_gemcode_regions ibam dist = (ms, None) /\
    total_readcount ms = length ibam /\
    Permutation (reads_of gs) ibam /\
    map readcount ms = map (fun g => length (snd g)) gs.
Proof.
  intros Ht. destruct (regions_partition dist ibam Ht) as (ms & gs & Hr & Hs & _ & P).
  destruct (summarises_readcount ms gs Hs) as [H1 H2].
  exists ms, gs. repeat split; auto.
  rewrite H2. now apply Permutation_length.
Qed.

Lemma conservation_witness :
  Forall tagged [rd "chr1" 10 "X"; rd "chr1" 10 "Y"; rd "chr1" 500 "X"] /\
  exists ms gs,
    get_gemcode_regions [rd "chr1" 10 "X"; rd "chr1" 10 "Y"; rd "chr1" 500 "X"] 50
    = (ms, None) /\
    total_readcount ms = 3%nat /\
    Permutation (reads_of gs) [rd "chr1" 10 "X"; rd "chr1" 10 "Y"; rd "chr1" 500 "X"] /\
    map readcount ms = map (fun g => length (snd g)) gs.
Proof.
  assert (Ht : Forall tagged [rd "chr1" 10 "X"; rd "chr1" 10 "Y"; rd "chr1" 500 "X"])
    by (repeat constructor; discriminate).
  split; [exact Ht | exact (conservation _ 50 Ht)].
Defined.

(** What a molecule says of the run it summarises. *)
Lemma summarises_interval (m : molecule) (g : group) :
  summarises m g ->
  m_start m <= m_end m /\
  In (m_start m) (map reference_start (snd g)) /\
  In (m_end m) (map reference_start (snd g)) /\
  (forall r, In r (snd g) -> m_start m <= reference_start r <= m_end m) /\
  readcount m = length (snd g) /\
  (forall r, snd g = [r] ->
     m_start m = reference_start r /\ m_end m = reference_start r /\
     readcount m = 1%nat).
Proof.
  intros H. unfold summarises in H.
  pose proof (close_readcount _ _ _ H) as Hn. rewrite length_map in Hn.
  destruct (close_interval _ _ _ H) as (Hlo & Hhi & Hb).
  rewrite map_map in Hlo, Hhi, Hb. change (fun x => pos (coords_of x)) with reference_start in *.
  assert (Hr : forall r, In r (snd g) -> m_start m <= reference_start r <= m_end m).
  { intros r Hin. apply Hb. now apply in_map. }
  split; [|split; [exact Hlo | split; [exact Hhi | split; [exact Hr | split; [exact Hn|]]]]].
  - apply in_map_iff in Hlo as (r & <- & Hin). specialize (Hr r Hin). lia.
  - intros r Hg. rewrite Hg in Hlo, Hhi, Hn. simpl in Hlo, Hhi, Hn.
    destruct Hlo as [<-|[]]. destruct Hhi as [<-|[]]. auto.
Qed.

(** ** The continuity test *)

(** An iteration on a read whose barcode has an open run. *)
Lemma step_open (dist : Z) (d : gemcodes_t) (r : read) (gem : string)
      (run : list coords) (l : coords) :
  RX r = Some gem -> dict_get gem d = Some run -> last_item run = Some l ->
  step dist d r
  = if discontinuous dist l r then
      match close gem run with
      | inl e => inl e
      | inr m => inr (dict_set gem [coords_of r] d, [m])
      end
    else inr (dict_set gem (run ++ [coords_of r]) d, []).
Proof. intros Hr Hg Hl. unfold step. now rewrite Hr, Hg, Hl. Qed.

(** The open runs of a dictionary that the loop can hold: they are not
    empty and their entries share the reference name of the first. *)
Lemma reachable_run (dist : Z) (d : gemcodes_t) (gem : string) (run : list coords) :
  reachable dist d -> dict_get gem d = Some run ->
  exists c0 l,
    hd_error run = Some c0 /\ last_item run = Some l /\
    Forall (fun c => chr c = chr c0) run /\ chr l = chr c0.
Proof.
  intros Hd Hg. destruct (reachable_ghost dist d Hd) as (gd & -> & Hok).
  rewrite erase_get in Hg. destruct (dict_get gem gd) as [g|] eqn:E; [|discriminate].
  injection Hg as <-.
  assert (Hgr : group_ok (gem, g)).
  { rewrite Forall_forall in Hok. apply Hok. now apply dict_get_In. }
  destruct (group_ok_last _ _ Hgr) as (l & r0 & rest & -> & Hin & Hl & Hall).
  exists (coords_of r0), (coords_of l). rewrite Forall_forall in Hall.
  destruct (Hall r0 (or_introl eq_refl)) as [_ H0].
  repeat split; auto.
  apply Forall_forall. intros c Hc. apply in_map_iff in Hc as (x & <- & Hx).
  destruct (Hall x Hx) as [_ H1]. simpl. congruence.
Qed.

Lemma reachable_sample :
  reachable 50 [("AA", [mk_coords "chr1" 100; mk_coords "chr1" 10])].
Proof. exists [rd "chr1" 100 "AA"; rd "chr1" 10 "AA"], []. reflexivity. Defined.

(** C3. Continuity test: a read whose barcode has an open run is appended to
    that run exactly when its reference name is that of the run (the one of
    its first entry, which is also the one of its last entry) and its
    position minus the position appended last is at most [dist]; otherwise
    the run is closed and the read starts a new one.  The position compared
    is the last one appended, not the greatest of the run: after positions
    100 and 10, a read at 70 with [dist = 50] closes the run.  With
    [0 <= dist] a read behind the last position is appended. *)
Theorem continuity_test :
  (forall (dist : Z) (d : gemcodes_t) (r : read) (gem : string) (run : list coords),
     reachable dist d -> RX r = Some gem -> dict_get gem d = Some run ->
     exists c0 l,
       hd_error run = Some c0 /\ last_item run = Some l /\ chr l = chr c0 /\
       (step dist d r = inr (dict_set gem (run ++ [coords_of r]) d, [])
        <-> reference_name r = chr c0 /\ reference_start r - pos l <= dist) /\
       (~ (reference_name r = chr c0 /\ reference_start r - pos l <= dist) ->
        exists m, close gem run = inr m /\
                  step dist d r = inr (dict_set gem [coords_of r] d, [m])) /\
       (0 <= dist -> reference_name r = chr c0 -> reference_start r - pos l < 0 ->
        step dist d r = inr (dict_set gem (run ++ [coords_of r]) d, []))) /\
  step 50 [("AA", [mk_coords "chr1" 100; mk_coords "chr1" 10])] (rd "chr1" 70 "AA")
  = inr ([("AA", [mk_coords "chr1" 70])], [mk_molecule "chr1" 10 100 "AA" 2]).
Proof.
  split; [|reflexivity].
  intros dist d r gem run Hd Hr Hg.
  destruct (reachable_run dist d gem run Hd Hg) as (c0 & l & H0 & Hl & _ & Hc).
  exists c0, l. rewrite (step_open dist d r gem run l Hr Hg Hl).
  assert (Hrun : run <> []) by (eapply last_item_nonempty; eassumption).
  destruct (close_nonempty gem run Hrun) as [m Hm]. rewrite Hm.
  split; [exact H0 | split; [exact Hl | split; [exact Hc|]]].
  destruct (discontinuous dist l r) eqn:D.
  - apply discontinuous_true in D. rewrite Hc in D.
    assert (Hno : ~ (reference_name r = chr c0 /\ reference_start r - pos l <= dist)).
    { intros [H1 H2]. destruct D as [D|D]; [congruence | lia]. }
    split; [split; [discriminate | intros H; now elim Hno] | split].
    + intros _. now exists m.
    + intros Hpos Href Hneg. elim Hno. split; [exact Href | lia].
  - apply discontinuous_false in D. destruct D as [D1 D2]. rewrite Hc in D1.
    assert (Hyes : reference_name r = chr c0 /\ reference_start r - pos l <= dist).
    { split; [congruence | lia]. }
    split; [split; [intros _; exact Hyes | reflexivity] | split].
    + intros Hn. now elim Hn.
    + reflexivity.
Qed.

Lemma continuity_test_witness :
  exists c0 l,
    hd_error [mk_coords "chr1" 100; mk_coords "chr1" 10] = Some c0 /\
    last_item [mk_coords "chr1" 100; mk_coords "chr1" 10] = Some l /\
    chr l = chr c0 /\
    (step 50 [("AA", [mk_coords "chr1" 100; mk_coords "chr1" 10])] (rd "chr1" 5 "AA")
     = inr (dict_set "AA" ([mk_coords "chr1" 100; mk_coords "chr1" 10]
                           ++ [coords_of (rd "chr1" 5 "AA")])
              [("AA", [mk_coords "chr1" 100; mk_coords "chr1" 10])], [])
     <-> reference_name (rd "chr1" 5 "AA") = chr c0 /\
         reference_start (rd "chr1" 5 "AA") - pos l <= 50) /\
    (~ (reference_name (rd "chr1" 5 "AA") = chr c0 /\
        reference_start (rd "chr1" 5 "AA") - pos l <= 50) ->
     exists m, close "AA" [mk_coords "chr1" 100; mk_coords "chr1" 10] = inr m /\
       step 50 [("AA", [mk_coords "chr1" 100; mk_coords "chr1" 10])] (rd "chr1" 5 "AA")
       = inr (dict_set "AA" [coords_of (rd "chr1" 5 "AA")]
                [("AA", [mk_coords "chr1" 100; mk_coords "chr1" 10])], [m])) /\
    (0 <= 50 -> reference_name (rd "chr1" 5 "AA") = chr c0 ->
     reference_start (rd "chr1" 5 "AA") - pos l < 0 ->
     step 50 [("AA", [mk_coords "chr1" 100; mk_coords "chr1" 10])] (rd "chr1" 5 "AA")
     = inr (dict_set "AA" ([mk_coords "chr1" 100; mk_coords "chr1" 10]
                           ++ [coords_of (rd "chr1" 5 "AA")])
              [("AA", [mk_coords "chr1" 100; mk_coords "chr1" 10])], [])).
Proof.
  apply (proj1 continuity_test 50
           [("AA", [mk_coords "chr1" 100; mk_coords "chr1" 10])]
           (rd "chr1" 5 "AA") "AA" [mk_coords "chr1" 100; mk_coords "chr1" 10]).
  - exact reachable_sample.
  - reflexivity.
  - reflexivity.
Defined.

(** C4. Discontinuity handling: when the read of an open barcode fails the
    continuity test, the iteration yields the molecule of the open run and
    then binds the barcode to a new run that holds the incoming read alone
    (closing it gives readcount 1); the key keeps its place and the other
    keys their runs.  Reads (chr1,100,AA), (chr1,140,AA), (chr1,300,AA) with
    [dist = 50] give chr1 100 140 AA 2 and then chr1 300 300 AA 1. *)
Theorem discontinuity_handling :
  (forall (dist : Z) (d : gemcodes_t) (r : read) (gem : string)
          (run : list coords) (l : coords),
     RX r = Some gem -> dict_get gem d = Some run -> last_item run = Some l ->
     discontinuous dist l r = true ->
     exists m,
       close gem run = inr m /\
       step dist d r = inr (dict_set gem [coords_of r] d, [m]) /\
       dict_get gem (dict_set gem [coords_of r] d) = Some [coords_of r] /\
       keys (dict_set gem [coords_of r] d) = keys d /\
       (forall k, gem <> k -> dict_get k (dict_set gem [coords_of r] d) = dict_get k d) /\
       close gem [coords_of r]
       = inr (mk_molecule (reference_name r) (reference_start r) (reference_start r) gem 1)) /\
  get_gemcode_regions [rd "chr1" 100 "AA"; rd "chr1" 140 "AA"; rd "chr1" 300 "AA"] 50
  = ([mk_molecule "chr1" 100 140 "AA" 2; mk_molecule "chr1" 300 300 "AA" 1], None).
Proof.
  split; [|reflexivity].
  intros dist d r gem run l Hr Hg Hl D.
  assert (Hrun : run <> []) by (eapply last_item_nonempty; eassumption).
  destruct (close_nonempty gem run Hrun) as [m Hm]. exists m.
  rewrite (step_open dist d r gem run l Hr Hg Hl), D, Hm.
  repeat split.
  - apply dict_get_set_same.
  - eapply keys_set_present; eassumption.
  - intros k Hk. now apply dict_get_set_other.
Qed.

Lemma discontinuity_handling_witness :
  exists m,
    close "AA" [mk_coords "chr1" 100; mk_coords "chr1" 140] = inr m /\
    step 50 [("B", [mk_coords "chr2" 1]); ("AA", [mk_coords "chr1" 100; mk_coords "chr1" 140])]
         (rd "chr1" 300 "AA")
    = inr (dict_set "AA" [coords_of (rd "chr1" 300 "AA")]
             [("B", [mk_coords "chr2" 1]);
              ("AA", [mk_coords "chr1" 100; mk_coords "chr1" 140])], [m]) /\
    dict_get "AA" (dict_set "AA" [coords_of (rd "chr1" 300 "AA")]
             [("B", [mk_coords "chr2" 1]);
              ("AA", [mk_coords "chr1" 100; mk_coords "chr1" 140])])
    = Some [coords_of (rd "chr1" 300 "AA")] /\
    keys (dict_set "AA" [coords_of (rd "chr1" 300 "AA")]
             [("B", [mk_coords "chr2" 1]);
              ("AA", [mk_coords "chr1" 100; mk_coords "chr1" 140])])
    = keys [("B", [mk_coords "chr2" 1]);
            ("AA", [mk_coords "chr1" 100; mk_coords "chr1" 140])] /\
    (forall k, "AA" <> k ->
       dict_get k (dict_set "AA" [coords_of (rd "chr1" 300 "AA")]
             [("B", [mk_coords "chr2" 1]);
              ("AA", [mk_coords "chr1" 100; mk_coords "chr1" 140])])
       = dict_get k [("B", [mk_coords "chr2" 1]);
                     ("AA", [mk_coords "chr1" 100; mk_coords "chr1" 140])]) /\
    close "AA" [coords_of (rd "chr1" 300 "AA")]
    = inr (mk_molecule (reference_name (rd "chr1" 300 "AA"))
             (reference_start (rd "chr1" 300 "AA"))
             (reference_start (rd "chr1" 300 "AA")) "AA" 1).
Proof.
  apply (proj1 discontinuity_handling 50
           [("B", [mk_coords "chr2" 1]); ("AA", [mk_coords "chr1" 100; mk_coords "chr1" 140])]
           (rd "chr1" 300 "AA") "AA" [mk_coords "chr1" 100; mk_coords "chr1" 140]
           (mk_coords "chr1" 140)); reflexivity.
Defined.

(** ** Molecules and the reads of their runs *)

(** The reads of a closed run carry the barcode and the reference name of
    its molecule. *)
Lemma summarises_members (m : molecule) (g : group) :
  summarises m g -> group_ok g ->
  exists r0 rest, snd g = r0 :: rest /\ m_chr m = reference_name r0 /\
    Forall (fun r => RX r = Some (barcode m) /\ reference_name r = m_chr m) (snd g).
Proof.
  destruct g as [b rs]. unfold summarises. simpl. intros Hm [Hne [c Hc]]. simpl in *.
  destruct rs as [|r0 rest]; [congruence|]. simpl in Hm. injection Hm as <-. simpl.
  exists r0, rest. repeat split.
  rewrite Forall_forall in Hc. destruct (Hc r0 (or_introl eq_refl)) as [_ H0].
  apply Forall_forall. intros r Hr. destruct (Hc r Hr). split; congruence.
Qed.

Lemma read_has_molecule (ms : list molecule) (gs : list group) :
  Forall2 summarises ms gs -> Forall group_ok gs ->
  forall r, In r (reads_of gs) ->
  exists m, In m ms /\ RX r = Some (barcode m) /\ reference_name r = m_chr m.
Proof.
  unfold reads_of. induction 1 as [|m g ms gs Hm _ IH]; intros Hok r Hr; [contradiction|].
  inversion Hok as [|? ? Hg Hok']; subst. simpl in Hr. apply in_app_or in Hr as [Hr|Hr].
  - destruct (summarises_members m g Hm Hg) as (_ & _ & _ & _ & Hall).
    rewrite Forall_forall in Hall. exists m. split; [now left | now apply Hall].
  - destruct (IH Hok' r Hr) as (m' & Hin & H'). exists m'. split; [now right | exact H'].
Qed.

Lemma molecule_has_read (ms : list molecule) (gs : list group) :
  Forall2 summarises ms gs -> Forall group_ok gs ->
  Forall (fun m => exists r, In r (reads_of gs) /\ RX r = Some (barcode m)) ms.
Proof.
  unfold reads_of. induction 1 as [|m g ms gs Hm _ IH]; intros Hok; [constructor|].
  inversion Hok as [|? ? Hg Hok']; subst. constructor.
  - destruct (summarises_members m g Hm Hg) as (r0 & rest & Hg0 & _ & Hall).
    exists r0. simpl. rewrite Hg0 in *. inversion Hall as [|? ? [H0 _] _]; subst.
    split; [now left | exact H0].
  - eapply Forall_impl; [|exact (IH Hok')]. simpl.
    intros m' (r & Hr & Hb). exists r. split; [apply in_or_app; now right | exact Hb].
Qed.

(** ** A read without a barcode *)

(** C5 as stated fails: the read without a tag ends the whole stream.  The
    molecule of the tagged read before it is never yielded and the tagged
    read after it is never read, whereas the two tagged reads alone give
    two molecules. *)
Lemma malformed_record_counterexample :
  get_gemcode_regions
    [rd "chr1" 100 "AA"; mk_read "chr1" 120 None; rd "chr1" 500 "BB"] 50
  = ([], Some KeyError) /\
  main [rd "chr1" 100 "AA"; mk_read "chr1" 120 None; rd "chr1" 500 "BB"] 50
  = ([], Some KeyError) /\
  get_gemcode_regions [rd "chr1" 100 "AA"; rd "chr1" 500 "BB"] 50
  = ([mk_molecule "chr1" 100 100 "AA" 1; mk_molecule "chr1" 500 500 "BB" 1], None).
Proof. repeat split. Qed.

(** C5, amended. A read without a barcode tag raises [KeyError] at that read
    and is put in no molecule: every molecule yielded carries the barcode of
    a tagged read that came before.  The exception ends the whole stream:
    the generator has yielded only the molecules closed before that read,
    the reads after it are not looked at, the open runs are not flushed, and
    [main] ends with the same exception after writing those molecules. *)
Theorem malformed_record_aborts (dist : Z) (pre post : list read) (bad : read) :
  Forall tagged pre -> RX bad = None ->
  exists ys d,
    for_reads dist [] pre = (ys, inr d) /\
    step dist d bad = inl KeyError /\
    get_gemcode_regions (pre ++ bad :: post) dist = (ys, Some KeyError) /\
    main (pre ++ bad :: post) dist
    = (map (fun bed => (bed_str bed ++ newline)%string) ys, Some KeyError) /\
    Forall (fun m => exists r, In r pre /\ RX r = Some (barcode m)) ys.
Proof.
  intros Ht Hbad.
  destruct (for_reads_ghost dist pre [] (Forall_nil _) Ht)
    as (gd' & closed & ys & Hf & Hs & Hok & _ & P).
  cbn [erase map] in Hf. exists ys, (erase gd').
  assert (Hg : get_gemcode_regions (pre ++ bad :: post) dist = (ys, Some KeyError)).
  { unfold get_gemcode_regions, regions_from. rewrite for_reads_app, Hf.
    simpl. rewrite (step_untagged _ _ _ Hbad). simpl. now rewrite app_nil_r. }
  repeat split; auto.
  - now apply step_untagged.
  - unfold main. now rewrite Hg.
  - eapply Forall_impl; [|exact (molecule_has_read ys closed Hs Hok)]. simpl.
    intros m (r & Hr & Hb). exists r. split; [|exact Hb].
    apply (Permutation_in r P). apply in_or_app. now left.
Qed.

Lemma malformed_record_aborts_witness :
  Forall tagged [rd "chr1" 1 "AA"; rd "chr1" 900 "AA"] /\
  exists ys d,
    for_reads 50 [] [rd "chr1" 1 "AA"; rd "chr1" 900 "AA"] = (ys, inr d) /\
    step 50 d (mk_read "chr1" 950 None) = inl KeyError /\
    get_gemcode_regions
      ([rd "chr1" 1 "AA"; rd "chr1" 900 "AA"]
       ++ mk_read "chr1" 950 None :: [rd "chr1" 960 "AA"]) 50
    = (ys, Some KeyError) /\
    main ([rd "chr1" 1 "AA"; rd "chr1" 900 "AA"]
          ++ mk_read "chr1" 950 None :: [rd "chr1" 960 "AA"]) 50
    = (map (fun bed => (bed_str bed ++ newline)%string) ys, Some KeyError) /\
    Forall (fun m => exists r,
              In r [rd "chr1" 1 "AA"; rd "chr1" 900 "AA"] /\ RX r = Some (barcode m)) ys.
Proof.
  assert (Ht : Forall tagged [rd "chr1" 1 "AA"; rd "chr1" 900 "AA"])
    by (repeat constructor; discriminate).
  split; [exact Ht|].
  exact (malformed_record_aborts 50 _ [rd "chr1" 960 "AA"] (mk_read "chr1" 950 None)
           Ht eq_refl).
Defined.

(** ** End of the stream *)

Lemma flush_closes (gd : dict (list read)) (zs : list molecule) :
  Forall2 summarises zs gd ->
  Forall2 (fun m e => close (fst e) (snd e) = inr m) zs (erase gd).
Proof. induction 1; simpl; constructor; auto. Qed.

(** C6. End-of-stream flush: no read, no molecule; and when the input ends,
    the generator closes and yields, in the order of the dictionary, the
    open run of every barcode that has one, so that every barcode carried
    by a read of the input has a molecule among those yielded. *)
Theorem end_of_stream_flush :
  (forall dist, get_gemcode_regions [] dist = ([], None)) /\
  (forall (ibam : list read) (dist : Z), Forall tagged ibam ->
     exists ys d zs,
       for_reads dist [] ibam = (ys, inr d) /\
       flush d = (zs, None) /\
       Forall2 (fun m e => close (fst e) (snd e) = inr m) zs d /\
       get_gemcode_regions ibam dist = (ys ++ zs, None) /\
       (forall r b, In r ibam -> RX r = Some b ->
          exists m, In m (ys ++ zs) /\ barcode m = b)).
Proof.
  split; [reflexivity|]. intros ibam dist Ht.
  destruct (for_reads_ghost dist ibam [] (Forall_nil _) Ht)
    as (gd' & closed & ys & Hf & Hs & Hok & Hgd' & P).
  destruct (flush_ghost gd' Hgd') as (zs & Hz & Hzs).
  cbn [erase map] in Hf. exists ys, (erase gd'), zs.
  split; [exact Hf | split; [exact Hz | split; [now apply flush_closes | split]]].
  - unfold get_gemcode_regions, regions_from. now rewrite Hf, Hz.
  - intros r b Hr Hb.
    destruct (read_has_molecule (ys ++ zs) (closed ++ gd')) with (r := r)
      as (m & Hin & Hm & _).
    + now apply Forall2_app.
    + apply Forall_app. now split.
    + rewrite reads_of_app. apply (Permutation_in r (Permutation_sym P)). exact Hr.
    + exists m. split; [exact Hin | congruence].
Qed.

Lemma end_of_stream_flush_witness :
  exists ys d zs,
    for_reads 50 [] [rd "chr1" 10 "X"; rd "chr1" 10 "Y"] = (ys, inr d) /\
    flush d = (zs, None) /\
    Forall2 (fun m e => close (fst e) (snd e) = inr m) zs d /\
    get_gemcode_regions [rd "chr1" 10 "X"; rd "chr1" 10 "Y"] 50 = (ys ++ zs, None) /\
    (forall r b, In r [rd "chr1" 10 "X"; rd "chr1" 10 "Y"] -> RX r = Some b ->
       exists m, In m (ys ++ zs) /\ barcode m = b).
Proof.
  apply (proj2 end_of_stream_flush [rd "chr1" 10 "X"; rd "chr1" 10 "Y"] 50).
  repeat constructor; discriminate.
Defined.

(** ** Threshold zero *)

(** C7 as stated fails: with [dist = 0] a read of the same reference at a
    distinct, smaller coordinate does not start a new molecule. *)
Lemma dist_zero_counterexample :
  reference_name (rd "chr1" 50 "AA") = reference_name (rd "chr1" 100 "AA") /\
  reference_start (rd "chr1" 50 "AA") <> reference_start (rd "chr1" 100 "AA") /\
  get_gemcode_regions [rd "chr1" 100 "AA"; rd "chr1" 50 "AA"] 0
  = ([mk_molecule "chr1" 50 100 "AA" 2], None).
Proof. repeat split. discriminate. Qed.

(** C7, amended. With [dist = 0], a read of the reference of the open run of
    its barcode starts a new molecule exactly when its coordinate is greater
    than that of the previous read of the barcode; at the same or at a
    smaller coordinate it stays joined, and no other read does. *)
Theorem dist_zero (d : gemcodes_t) (r : read) (gem : string) (run : list coords) :
  reachable 0 d -> RX r = Some gem -> dict_get gem d = Some run ->
  exists c0 l,
    hd_error run = Some c0 /\ last_item run = Some l /\
    (reference_name r = chr c0 -> pos l < reference_start r ->
     exists m, close gem run = inr m /\
               step 0 d r = inr (dict_set gem [coords_of r] d, [m])) /\
    (reference_name r = chr c0 -> reference_start r <= pos l ->
     step 0 d r = inr (dict_set gem (run ++ [coords_of r]) d, [])) /\
    (step 0 d r = inr (dict_set gem (run ++ [coords_of r]) d, [])
     <-> reference_name r = chr c0 /\ reference_start r <= pos l).
Proof.
  intros Hd Hr Hg.
  destruct (reachable_run 0 d gem run Hd Hg) as (c0 & l & H0 & Hl & _ & Hc).
  exists c0, l. rewrite (step_open 0 d r gem run l Hr Hg Hl).
  assert (Hrun : run <> []) by (eapply last_item_nonempty; eassumption).
  destruct (close_nonempty gem run Hrun) as [m Hm]. rewrite Hm.
  split; [exact H0 | split; [exact Hl|]].
  destruct (discontinuous 0 l r) eqn:D.
  - apply discontinuous_true in D. rewrite Hc in D.
    assert (Hno : ~ (reference_name r = chr c0 /\ reference_start r <= pos l)).
    { intros [H1 H2]. destruct D as [D|D]; [congruence | lia]. }
    split; [|split].
    + intros _ _. now exists m.
    + intros H1 H2. elim Hno. now split.
    + split; [discriminate | intros H; now elim Hno].
  - apply discontinuous_false in D. destruct D as [D1 D2]. rewrite Hc in D1.
    split; [|split].
    + intros _ Hlt. exfalso. lia.
    + reflexivity.
    + split; [intros _; split; [congruence | lia] | reflexivity].
Qed.

Lemma dist_zero_witness :
  exists c0 l,
    hd_error [mk_coords "chr1" 100] = Some c0 /\
    last_item [mk_coords "chr1" 100] = Some l /\
    (reference_name (rd "chr1" 50 "AA") = chr c0 ->
     pos l < reference_start (rd "chr1" 50 "AA") ->
     exists m, close "AA" [mk_coords "chr1" 100] = inr m /\
       step 0 [("AA", [mk_coords "chr1" 100])] (rd "chr1" 50 "AA")
       = inr (dict_set "AA" [coords_of (rd "chr1" 50 "AA")]
                [("AA", [mk_coords "chr1" 100])], [m])) /\
    (reference_name (rd "chr1" 50 "AA") = chr c0 ->
     reference_start (rd "chr1" 50 "AA") <= pos l ->
     step 0 [("AA", [mk_coords "chr1" 100])] (rd "chr1" 50 "AA")
     = inr (dict_set "AA" ([mk_coords "chr1" 100] ++ [coords_of (rd "chr1" 50 "AA")])
              [("AA", [mk_coords "chr1" 100])], [])) /\
    (step 0 [("AA", [mk_coords "chr1" 100])] (rd "chr1" 50 "AA")
     = inr (dict_set "AA" ([mk_coords "chr1" 100] ++ [coords_of (rd "chr1" 50 "AA")])
              [("AA", [mk_coords "chr1" 100])], [])
     <-> reference_name (rd "chr1" 50 "AA") = chr c0 /\
         reference_start (rd "chr1" 50 "AA") <= pos l).
Proof.
  apply (dist_zero [("AA", [mk_coords "chr1" 100])] (rd "chr1" 50 "AA") "AA"
           [mk_coords "chr1" 100]).
  - exists [rd "chr1" 100 "AA"], []. reflexivity.
  - reflexivity.
  - reflexivity.
Defined.

(** ** Barcodes do not interfere *)

(** C8. Interleaving independence: the molecules of a barcode are, in the
    same order, those that the generator yields on the reads of that
    barcode alone, so two inputs with the same reads of a barcode in the
    same order give the same molecules of that barcode.  Every interleaving
    of (chr1,10,X), (chr1,20,X) with (chr1,10,Y), (chr1,20,Y) gives, with
    [dist = 50], the two molecules chr1 10 20 X 2 and chr1 10 20 Y 2, in
    the order in which the barcodes are first seen. *)
Theorem interleaving_independence :
  (forall (ibam : list read) (dist : Z) (b : string), Forall tagged ibam ->
     filter (is_barcode b) (fst (get_gemcode_regions ibam dist))
     = fst (get_gemcode_regions (filter (has_barcode b) ibam) dist) /\
     snd (get_gemcode_regions ibam dist) = None) /\
  (forall (ibam ibam' : list read) (dist : Z) (b : string),
     Forall tagged ibam -> Forall tagged ibam' ->
     filter (has_barcode b) ibam = filter (has_barcode b) ibam' ->
     filter (is_barcode b) (fst (get_gemcode_regions ibam dist))
     = filter (is_barcode b) (fst (get_gemcode_regions ibam' dist))) /\
  (forall ibam : list read,
     Interleave [rd "chr1" 10 "X"; rd "chr1" 20 "X"]
                [rd "chr1" 10 "Y"; rd "chr1" 20 "Y"] ibam ->
     exists ms,
       get_gemcode_regions ibam 50 = (ms, None) /\
       Permutation ms [mk_molecule "chr1" 10 20 "X" 2; mk_molecule "chr1" 10 20 "Y" 2]).
Proof.
  assert (H1 : forall (ibam : list read) (dist : Z) (b : string), Forall tagged ibam ->
     filter (is_barcode b) (fst (get_gemcode_regions ibam dist))
     = fst (get_gemcode_regions (filter (has_barcode b) ibam) dist) /\
     snd (get_gemcode_regions ibam dist) = None).
  { intros ibam dist b Ht.
    exact (regions_only dist b ibam [] (conj (NoDup_nil _) (Forall_nil _)) Ht). }
  split; [exact H1 | split].
  - intros ibam ibam' dist b Ht Ht' Hf.
    rewrite (proj1 (H1 ibam dist b Ht)), (proj1 (H1 ibam' dist b Ht')). now rewrite Hf.
  - intros ibam Hi. invert_interleave;
      (eexists; split; [reflexivity|]); first [reflexivity | apply perm_swap].
Qed.

Lemma interleaving_independence_witness :
  filter (is_barcode "X")
    (fst (get_gemcode_regions
            [rd "chr1" 10 "X"; rd "chr1" 10 "Y"; rd "chr1" 20 "X"; rd "chr1" 20 "Y"] 50))
  = fst (get_gemcode_regions
           (filter (has_barcode "X")
              [rd "chr1" 10 "X"; rd "chr1" 10 "Y"; rd "chr1" 20 "X"; rd "chr1" 20 "Y"]) 50) /\
  snd (get_gemcode_regions
         [rd "chr1" 10 "X"; rd "chr1" 10 "Y"; rd "chr1" 20 "X"; rd "chr1" 20 "Y"] 50) = None.
Proof.
  apply (proj1 interleaving_independence
           [rd "chr1" 10 "X"; rd "chr1" 10 "Y"; rd "chr1" 20 "X"; rd "chr1" 20 "Y"] 50 "X").
  repeat constructor; discriminate.
Defined.

(** ** One reference name per run *)



(** ** The command line entry point *)

Lemma append_assoc (s t u : string) : ((s ++ t) ++ u = s ++ (t ++ u))%string.
Proof. induction s as [|a s IH]; simpl; [reflexivity | now rewrite IH]. Qed.

Lemma load_name_f : load_name "f" = Some NameError.
Proof. reflexivity. Qed.

Lemma main_never_returns (ibam : list read) (dist : Z) : snd (main ibam dist) <> None.
Proof.
  unfold main. destruct (get_gemcode_regions ibam dist) as [beds [e|]]; simpl.
  - discriminate.
  - rewrite load_name_f. discriminate.
Qed.

(** C10. On every input on which the generator is exhausted without an
    exception, which holds of every input whose reads all carry a barcode,
    [main] writes one line per molecule, in the order yielded, each made of
    the five fields separated by tabs and ended by a newline, and then ends
    with [NameError], the name [f] of line 88 being unbound. *)
Theorem main_name_error :
  (forall (ibam : list read) (dist : Z) (ms : list molecule),
     get_gemcode_regions ibam dist = (ms, None) ->
     main ibam dist
     = (map (fun bed =>
               (m_chr bed ++ tab ++ str_of_Z (m_start bed) ++ tab
                ++ str_of_Z (m_end bed) ++ tab ++ barcode bed ++ tab
                ++ str_of_Z (Z.of_nat (readcount bed)) ++ newline)%string) ms,
        Some NameError)) /\
  (forall (ibam : list read) (dist : Z), Forall tagged ibam ->
     exists ms, get_gemcode_regions ibam dist = (ms, None) /\
                length (fst (main ibam dist)) = length ms /\
                snd (main ibam dist) = Some NameError) /\
  bound "f" = false /\ bound "fout" = true.
Proof.
  assert (H1 : forall (ibam : list read) (dist : Z) (ms : list molecule),
     get_gemcode_regions ibam dist = (ms, None) ->
     main ibam dist
     = (map (fun bed =>
               (m_chr bed ++ tab ++ str_of_Z (m_start bed) ++ tab
                ++ str_of_Z (m_end bed) ++ tab ++ barcode bed ++ tab
                ++ str_of_Z (Z.of_nat (readcount bed)) ++ newline)%string) ms,
        Some NameError)).
  { intros ibam dist ms H. unfold main. rewrite H, load_name_f. f_equal.
    apply map_ext. intros bed. unfold bed_str.
    now rewrite !append_assoc. }
  split; [exact H1 | split; [|split; reflexivity]].
  intros ibam dist Ht.
  destruct (regions_partition dist ibam Ht) as (ms & gs & Hr & _).
  exists ms. rewrite (H1 ibam dist ms Hr). simpl. now rewrite length_map.
Qed.

Lemma main_name_error_witness :
  main [rd "chr1" 100 "AA"; rd "chr1" 140 "AA"; rd "chr1" 300 "AA"] 50
  = (map (fun bed =>
            (m_chr bed ++ tab ++ str_of_Z (m_start bed) ++ tab
             ++ str_of_Z (m_end bed) ++ tab ++ barcode bed ++ tab
             ++ str_of_Z (Z.of_nat (readcount bed)) ++ newline)%string)
       [mk_molecule "chr1" 100 140 "AA" 2; mk_molecule "chr1" 300 300 "AA" 1],
     Some NameError).
Proof.
  apply (proj1 main_name_error
           [rd "chr1" 100 "AA"; rd "chr1" 140 "AA"; rd "chr1" 300 "AA"] 50).
  reflexivity.
Defined.

(** * Further properties of the code *)

(** ** How the generator and [main] end *)

Lemma for_reads_exn (dist : Z) (ibam : list read) :
  forall gd ys e, Forall group_ok gd ->
  for_reads dist (erase gd) ibam = (ys, inl e) ->
  e = KeyError /\ ~ Forall tagged ibam.
Proof.
  induction ibam as [|r ibam IH]; intros gd ys e Hgd H; [discriminate|].
  destruct (RX r) as [gem|] eqn:Er.
  - destruct (step_ghost dist gd r gem Hgd Er) as (gd1 & c1 & m1 & Hs & _ & _ & Hgd1 & _).
    rewrite (for_reads_cons _ _ _ _ _ _ Hs) in H.
    destruct (for_reads dist (erase gd1) ibam) as [zs res] eqn:Ef. simpl in H.
    injection H as _ ->. destruct (IH gd1 zs e Hgd1 Ef) as [He Hn].
    split; [exact He|]. intros Ht. apply Hn. now inversion Ht.
  - simpl in H. rewrite (step_untagged _ _ _ Er) in H. injection H as _ <-.
    split; [reflexivity|]. intros Ht. inversion Ht as [|? ? Hr _]. now apply Hr.
Qed.

(** The generator ends without an exception exactly when every read carries
    a barcode tag, and the only exception it ever raises is [KeyError]: the
    lookups [gemcodes[gem][-1]] and [gemcodes[gem][0]] and the calls of
    [min] and [max] never meet an empty list. *)
Theorem regions_outcome (ibam : list read) (dist : Z) :
  (snd (get_gemcode_regions ibam dist) = None <-> Forall tagged ibam) /\
  (snd (get_gemcode_regions ibam dist) = Some KeyError <-> ~ Forall tagged ibam) /\
  snd (get_gemcode_regions ibam dist) <> Some IndexError /\
  snd (get_gemcode_regions ibam dist) <> Some ValueError /\
  snd (get_gemcode_regions ibam dist) <> Some NameError.
Proof.
  unfold get_gemcode_regions, regions_from.
  destruct (for_reads dist [] ibam) as [ys [e|d]] eqn:Ef.
  - destruct (for_reads_exn dist ibam [] ys e (Forall_nil _) Ef) as [-> Hn]. simpl.
    repeat split; try discriminate; try tauto.
  - assert (Ht : Forall tagged ibam).
    { eapply (for_reads_ok_inv dist ibam []); [constructor | exact Ef]. }
    destruct (for_reads_ghost dist ibam [] (Forall_nil _) Ht)
      as (gd' & closed & ms & Hf & _ & _ & Hgd' & _).
    cbn [erase map] in Hf. rewrite Ef in Hf. injection Hf as _ ->.
    destruct (flush_ghost gd' Hgd') as (zs & Hz & _). rewrite Hz. simpl.
    repeat split; try discriminate; try tauto.
Qed.

(** [main] never returns: it ends with [NameError] when every read carries a
    barcode tag and with [KeyError] otherwise, and it has then written one
    string per molecule that the generator yielded. *)
Theorem main_outcome (ibam : list read) (dist : Z) :
  (snd (main ibam dist) = Some NameError <-> Forall tagged ibam) /\
  (snd (main ibam dist) = Some KeyError <-> ~ Forall tagged ibam) /\
  snd (main ibam dist) <> None /\
  length (fst (main ibam dist)) = length (fst (get_gemcode_regions ibam dist)).
Proof.
  destruct (regions_outcome ibam dist) as (H1 & H2 & H3 & H4 & H5).
  unfold main. destruct (get_gemcode_regions ibam dist) as [beds [e|]]; simpl in *.
  - rewrite length_map. split; [split|split; [exact H2 | split; [discriminate | reflexivity]]].
    + intros He. now elim H5.
    + intros Ht. apply H1 in Ht. discriminate.
  - rewrite load_name_f, length_map.
    split; [split; [intros _; now apply H1 | reflexivity]|].
    split; [split; [discriminate | intros Hn; apply H2 in Hn; discriminate]|].
    split; [discriminate | reflexivity].
Qed.

(** ** The keys of the dictionary *)

Lemma keys_dict_set {V : Type} (g : string) (v : V) (d : dict V) :
  keys (dict_set g v d) = keys d ++ (if mem g (keys d) then [] else [g]).
Proof.
  unfold keys, mem. induction d as [|[k w] d IH]; simpl; [reflexivity|].
  rewrite (String.eqb_sym g k). destruct (String.eqb k g) eqn:E; simpl.
  - now rewrite app_nil_r.
  - now rewrite IH.
Qed.

(** What an iteration that raises nothing does to the dictionary. *)
Lemma step_inr (dist : Z) (d d' : gemcodes_t) (r : read) (out : list molecule) :
  step dist d r = inr (d', out) ->
  exists gem v,
    RX r = Some gem /\ d' = dict_set gem v d /\ last_item v = Some (coords_of r) /\
    (length out <= 1)%nat.
Proof.
  unfold step. destruct (RX r) as [gem|]; [|discriminate].
  destruct (dict_get gem d) as [run|].
  - destruct (last_item run) as [l|]; [|discriminate].
    destruct (discontinuous dist l r).
    + destruct (close gem run) as [e|m]; [discriminate|].
      intros [= <- <-]. exists gem, [coords_of r]. simpl. repeat split; auto.
    + intros [= <- <-]. exists gem, (run ++ [coords_of r]).
      rewrite last_item_app. simpl. repeat split; auto.
  - intros [= <- <-]. exists gem, [coords_of r]. simpl. repeat split; auto.
Qed.

(** An iteration changes the run of the barcode of its read, whose last
    entry becomes that read, and nothing else: no key is removed or moved,
    a new key goes to the end, and every other barcode keeps its run. *)
Theorem step_frame (dist : Z) (d d' : gemcodes_t) (r : read) (out : list molecule) :
  step dist d r = inr (d', out) ->
  exists gem run,
    RX r = Some gem /\
    dict_get gem d' = Some run /\ last_item run = Some (coords_of r) /\
    keys d' = keys d ++ (if mem gem (keys d) then [] else [gem]) /\
    (forall k, gem <> k -> dict_get k d' = dict_get k d).
Proof.
  intros H. destruct (step_inr dist d d' r out H) as (gem & v & Hr & -> & Hl & _).
  exists gem, v. repeat split; auto.
  - apply dict_get_set_same.
  - apply keys_dict_set.
  - intros k Hk. now apply dict_get_set_other.
Qed.

Lemma step_frame_witness :
  exists gem run,
    RX (rd "chr1" 7 "B") = Some gem /\
    dict_get gem [("AA", [mk_coords "chr1" 100]); ("B", [mk_coords "chr1" 7])] = Some run /\
    last_item run = Some (coords_of (rd "chr1" 7 "B")) /\
    keys [("AA", [mk_coords "chr1" 100]); ("B", [mk_coords "chr1" 7])]
    = keys [("AA", [mk_coords "chr1" 100])]
      ++ (if mem gem (keys [("AA", [mk_coords "chr1" 100])]) then [] else [gem]) /\
    (forall k, gem <> k ->
       dict_get k [("AA", [mk_coords "chr1" 100]); ("B", [mk_coords "chr1" 7])]
       = dict_get k [("AA", [mk_coords "chr1" 100])]).
Proof.
  apply (step_frame 50 [("AA", [mk_coords "chr1" 100])]
           [("AA", [mk_coords "chr1" 100]); ("B", [mk_coords "chr1" 7])]
           (rd "chr1" 7 "B") []).
  reflexivity.
Defined.

Lemma filter_filter {A : Type} (f g : A -> bool) (l : list A) :
  filter f (filter g l) = filter (fun x => g x && f x) l.
Proof.
  induction l as [|a l IH]; simpl; [reflexivity|].
  destruct (g a); simpl; [destruct (f a); now rewrite IH | exact IH].
Qed.

Lemma for_reads_keys (dist : Z) (ibam : list read) :
  forall d ys d', for_reads dist d ibam = (ys, inr d') ->
  keys d' = keys d
            ++ filter (fun k => negb (mem k (keys d))) (first_seen (barcodes_of ibam)).
Proof.
  induction ibam as [|r ibam IH]; intros d ys d' H.
  - simpl in H. injection H as _ <-. simpl. now rewrite app_nil_r.
  - simpl in H. destruct (step dist d r) as [e|[d1 out]] eqn:Es; [discriminate|].
    destruct (for_reads dist d1 ibam) as [zs res] eqn:Ef. injection H as _ ->.
    destruct (step_inr dist d d1 r out Es) as (gem & v & Hr & -> & _ & _).
    rewrite (IH _ _ _ Ef), keys_dict_set. unfold barcodes_of. simpl. rewrite Hr. simpl.
    fold (barcodes_of ibam). rewrite !filter_filter.
    destruct (mem gem (keys d)) eqn:Em; simpl.
    + rewrite app_nil_r. f_equal. apply filter_ext. intros k.
      destruct (String.eqb k gem) eqn:E; simpl; [|reflexivity].
      apply String.eqb_eq in E; subst k. now rewrite Em.
    + rewrite <- app_assoc. simpl. do 2 f_equal. apply filter_ext. intros k.
      unfold mem. rewrite existsb_app. simpl. rewrite orb_false_r, negb_orb.
      apply andb_comm.
Qed.

Lemma flush_barcodes (d : gemcodes_t) (zs : list molecule) :
  flush d = (zs, None) -> map barcode zs = keys d.
Proof.
  revert zs. induction d as [|[gem run] d IH]; intros zs H; simpl in H.
  - now injection H as <-.
  - destruct (close gem run) as [e|m] eqn:Ec; [discriminate|].
    destruct (flush d) as [ys res] eqn:Ef. injection H as <- ->. simpl.
    now rewrite (close_barcode _ _ _ Ec), (IH ys eq_refl).
Qed.

Lemma regions_flush_keys (ibam : list read) (dist : Z) :
  Forall tagged ibam ->
  exists ys d zs,
    for_reads dist [] ibam = (ys, inr d) /\
    keys d = first_seen (barcodes_of ibam) /\
    get_gemcode_regions ibam dist = (ys ++ zs, None) /\
    map barcode zs = first_seen (barcodes_of ibam).
Proof.
  intros Ht.
  destruct (for_reads_ghost dist ibam [] (Forall_nil _) Ht)
    as (gd' & closed & ys & Hf & _ & _ & Hgd' & _).
  destruct (flush_ghost gd' Hgd') as (zs & Hz & _). cbn [erase map] in Hf.
  pose proof (for_reads_keys dist ibam [] ys (erase gd') Hf) as Hk.
  assert (Hid : forall l : list string,
            filter (fun k => negb (mem k (@keys (list coords) []))) l = l).
  { induction l as [|a l IHl]; [reflexivity|].
    change (a :: filter (fun k => negb (mem k (@keys (list coords) []))) l = a :: l).
    now rewrite IHl. }
  rewrite Hid in Hk. simpl in Hk.
  exists ys, (erase gd'), zs.
  split; [exact Hf | split; [exact Hk | split]].
  - unfold get_gemcode_regions, regions_from. now rewrite Hf, Hz.
  - now rewrite (flush_barcodes _ _ Hz).
Qed.


(** When the loop has read the whole input, the dictionary holds the
    distinct barcodes of the input in the order of their first occurrence,
    and the flush yields exactly one molecule for each, in that order. *)
Theorem flush_order (ibam : list read) (dist : Z) :
  Forall tagged ibam ->
  exists ys d zs,
    for_reads dist [] ibam = (ys, inr d) /\
    keys d = first_seen (barcodes_of ibam) /\
    get_gemcode_regions ibam dist = (ys ++ zs, None) /\
    map barcode zs = first_seen (barcodes_of ibam).
Proof. exact (regions_flush_keys ibam dist). Qed.

Lemma flush_order_witness :
  Forall tagged [rd "chr1" 10 "Y"; rd "chr1" 10 "X"; rd "chr1" 900 "Y"] /\
  exists ys d zs,
    for_reads 50 [] [rd "chr1" 10 "Y"; rd "chr1" 10 "X"; rd "chr1" 900 "Y"] = (ys, inr d) /\
    keys d = first_seen (barcodes_of [rd "chr1" 10 "Y"; rd "chr1" 10 "X"; rd "chr1" 900 "Y"]) /\
    get_gemcode_regions [rd "chr1" 10 "Y"; rd "chr1" 10 "X"; rd "chr1" 900 "Y"] 50
    = (ys ++ zs, None) /\
    map barcode zs
    = first_seen (barcodes_of [rd "chr1" 10 "Y"; rd "chr1" 10 "X"; rd "chr1" 900 "Y"]).
Proof.
  assert (Ht : Forall tagged [rd "chr1" 10 "Y"; rd "chr1" 10 "X"; rd "chr1" 900 "Y"])
    by (repeat constructor; discriminate).
  split; [exact Ht | exact (flush_order _ 50 Ht)].
Defined.

(** ** How many molecules *)

Lemma readcount_le_total (ms : list molecule) :
  Forall (fun m => (1 <= readcount m)%nat) ms -> (length ms <= total_readcount ms)%nat.
Proof. induction 1 as [|m ms Hm _ IH]; simpl; lia. Qed.

(** No molecule is empty: every molecule yielded counts at least one read.
    So there are at most as many molecules as reads, and, each barcode
    being flushed at the end, at least as many as distinct barcodes. *)
Theorem molecule_count (ibam : list read) (dist : Z) :
  Forall tagged ibam ->
  exists ms,
    get_gemcode_regions ibam dist = (ms, None) /\
    Forall (fun m => (1 <= readcount m)%nat) ms /\
    (length (first_seen (barcodes_of ibam)) <= length ms <= length ibam)%nat.
Proof.
  intros Ht. destruct (regions_partition dist ibam Ht) as (ms & gs & Hr & Hs & Hok & P).
  destruct (summarises_readcount ms gs Hs) as [_ Htot].
  assert (Hone : Forall (fun m => (1 <= readcount m)%nat) ms).
  { clear Hr P Htot. induction Hs as [|m g ms gs Hm Hs IH]; [constructor|].
    inversion Hok as [|? ? Hg Hok']; subst. constructor; [|now apply IH].
    apply close_readcount in Hm. rewrite length_map in Hm. rewrite Hm.
    destruct Hg as [Hne _]. destruct (snd g); [congruence | simpl; lia]. }
  exists ms. split; [exact Hr | split; [exact Hone | split]].
  - destruct (regions_flush_keys ibam dist Ht) as (ys & d & zs & _ & _ & Hr' & Hz).
    rewrite Hr in Hr'. injection Hr' as ->.
    rewrite <- Hz, length_map, length_app. lia.
  - pose proof (readcount_le_total ms Hone) as Hle. rewrite Htot in Hle.
    now rewrite (Permutation_length P) in Hle.
Qed.

Lemma molecule_count_witness :
  Forall tagged [rd "chr1" 10 "Y"; rd "chr1" 10 "X"; rd "chr1" 900 "Y"] /\
  exists ms,
    get_gemcode_regions [rd "chr1" 10 "Y"; rd "chr1" 10 "X"; rd "chr1" 900 "Y"] 50
    = (ms, None) /\
    Forall (fun m => (1 <= readcount m)%nat) ms /\
    (length (first_seen (barcodes_of [rd "chr1" 10 "Y"; rd "chr1" 10 "X"; rd "chr1" 900 "Y"]))
     <= length ms
     <= length [rd "chr1" 10 "Y"; rd "chr1" 10 "X"; rd "chr1" 900 "Y"])%nat.
Proof.
  assert (Ht : Forall tagged [rd "chr1" 10 "Y"; rd "chr1" 10 "X"; rd "chr1" 900 "Y"])
    by (repeat constructor; discriminate).
  split; [exact Ht | exact (molecule_count _ 50 Ht)].
Defined.

(** ** The runs of one barcode *)

Lemma chained_snoc (dist : Z) (r : read) :
  forall (cur : list read) (c : coords),
  chained dist cur -> last_item (map coords_of cur) = Some c ->
  discontinuous dist c r = false -> chained dist (cur ++ [r]).
Proof.
  induction cur as [|x cur IH]; intros c Hc Hl D; [discriminate|].
  destruct cur as [|y cur].
  - simpl in Hl. injection Hl as <-. simpl. now split.
  - destruct Hc as [Hxy Hc]. split; [exact Hxy|].
    apply (IH c Hc); [exact Hl | exact D].
Qed.

(** The runs cut by [runs_from] are consecutive pieces of the reads, none is
    empty, each is chained, and each but the first breaks off the one
    before. *)
Lemma runs_from_spec (dist : Z) (l : list read) :
  forall cur prev,
  cur <> [] -> last_item (map coords_of cur) = Some (coords_of prev) ->
  chained dist cur ->
  concat (runs_from dist cur prev l) = cur ++ l /\
  Forall (fun g => g <> []) (runs_from dist cur prev l) /\
  Forall (chained dist) (runs_from dist cur prev l) /\
  broken dist (runs_from dist cur prev l) /\
  exists tail rest, runs_from dist cur prev l = (cur ++ tail) :: rest.
Proof.
  induction l as [|r l IH]; intros cur prev Hne Hl Hc; simpl.
  - rewrite app_nil_r. repeat split; auto. exists [], []. now rewrite app_nil_r.
  - destruct (discontinuous dist (coords_of prev) r) eqn:D.
    + destruct (IH [r] r) as (H1 & H2 & H3 & H4 & tail & rest & Hr);
        [discriminate | reflexivity | exact I |].
      simpl. rewrite H1. split; [reflexivity|].
      split; [now constructor | split; [now constructor | split]].
      * rewrite Hr in *. split; [|exact H4]. exists prev, r. simpl. now repeat split.
      * exists [], (runs_from dist [r] r l). now rewrite app_nil_r.
    + destruct (IH (cur ++ [r]) r) as (H1 & H2 & H3 & H4 & tail & rest & Hr).
      * now destruct cur.
      * rewrite map_app. apply last_item_app.
      * now apply (chained_snoc dist r cur (coords_of prev)).
      * rewrite H1, <- app_assoc. split; [reflexivity|].
        split; [exact H2 | split; [exact H3 | split; [exact H4|]]].
        exists (r :: tail), rest. now rewrite Hr, <- app_assoc.
Qed.

(** The generator on the reads of one barcode, a run being open. *)
Lemma regions_one_key (dist : Z) (b : string) (l : list read) :
  forall cur prev,
  Forall (fun r => RX r = Some b) l -> cur <> [] ->
  last_item (map coords_of cur) = Some (coords_of prev) ->
  exists ms,
    regions_from dist [(b, map coords_of cur)] l = (ms, None) /\
    Forall2 (fun m g => close b (map coords_of g) = inr m) ms
            (runs_from dist cur prev l).
Proof.
  induction l as [|r l IH]; intros cur prev Hb Hne Hl.
  - destruct (close_nonempty b (map coords_of cur)) as [m Hm]; [now destruct cur|].
    exists [m]. unfold regions_from. simpl. rewrite Hm. split; [reflexivity|].
    constructor; [exact Hm | constructor].
  - inversion Hb as [|? ? Hr Hb']; subst.
    assert (Hg : dict_get b [(b, map coords_of cur)] = Some (map coords_of cur)).
    { simpl. now rewrite String.eqb_refl. }
    pose proof (step_open dist _ r b _ _ Hr Hg Hl) as Hs.
    assert (Hset : forall v, dict_set b v [(b, map coords_of cur)] = [(b, v)]).
    { intros v. simpl. now rewrite String.eqb_refl. }
    rewrite !Hset in Hs. simpl runs_from.
    destruct (discontinuous dist (coords_of prev) r).
    + destruct (close_nonempty b (map coords_of cur)) as [m Hm]; [now destruct cur|].
      rewrite Hm in Hs.
      destruct (IH [r] r Hb') as (ms & Hms & Hf); [discriminate | reflexivity |].
      exists (m :: ms). rewrite (regions_from_cons _ _ _ _ _ _ Hs).
      simpl map in Hms. rewrite Hms. split; [reflexivity | now constructor].
    + destruct (IH (cur ++ [r]) r Hb') as (ms & Hms & Hf).
      * now destruct cur.
      * rewrite map_app. apply last_item_app.
      * exists ms. rewrite (regions_from_cons _ _ _ _ _ _ Hs).
        rewrite map_app in Hms. simpl map in Hms. rewrite Hms. now split.
Qed.

(** The molecules of a barcode summarise the runs of [split_runs] on the
    reads of that barcode. *)
Lemma regions_split_runs (dist : Z) (b : string) (ibam : list read) :
  Forall tagged ibam ->
  Forall2 (fun m g => close b (map coords_of g) = inr m)
          (filter (is_barcode b) (fst (get_gemcode_regions ibam dist)))
          (split_runs dist (filter (has_barcode b) ibam)).
Proof.
  intros Ht.
  destruct (regions_only dist b ibam [] (conj (NoDup_nil _) (Forall_nil _)) Ht) as [H _].
  unfold get_gemcode_regions. rewrite H. unfold only. cbn [dict_get].
  assert (Hb : Forall (fun r => RX r = Some b) (filter (has_barcode b) ibam)).
  { apply Forall_forall. intros r Hr. apply filter_In in Hr as [_ Hr].
    now apply has_barcode_RX. }
  destruct (filter (has_barcode b) ibam) as [|r l]; [constructor|].
  inversion Hb as [|? ? Hr Hb']; subst.
  assert (Hs : step dist [] r = inr ([(b, map coords_of [r])], [])).
  { unfold step. now rewrite Hr. }
  rewrite (regions_from_cons _ _ _ _ _ _ Hs).
  destruct (regions_one_key dist b l [r] r Hb') as (ms & Hms & Hf);
    [discriminate | reflexivity |].
  rewrite Hms. exact Hf.
Qed.

(** For every barcode, the molecules of the barcode, in the order yielded,
    summarise consecutive pieces of the sequence of the reads of that
    barcode: no piece is empty, inside a piece every read passes the
    continuity test against the read before it, and the first read of each
    later piece fails it against the last read of the piece before. *)
Theorem barcode_runs (ibam : list read) (dist : Z) (b : string) :
  Forall tagged ibam ->
  exists runs,
    concat runs = filter (has_barcode b) ibam /\
    Forall (fun g => g <> []) runs /\
    Forall (chained dist) runs /\
    broken dist runs /\
    Forall2 (fun m g => close b (map coords_of g) = inr m)
            (filter (is_barcode b) (fst (get_gemcode_regions ibam dist))) runs.
Proof.
  intros Ht. exists (split_runs dist (filter (has_barcode b) ibam)).
  pose proof (regions_split_runs dist b ibam Ht) as Hf.
  destruct (filter (has_barcode b) ibam) as [|r l]; simpl in *.
  - repeat split; auto.
  - destruct (runs_from_spec dist l [r] r) as (H1 & H2 & H3 & H4 & _);
      [discriminate | reflexivity | exact I |].
    repeat split; auto.
Qed.

Lemma barcode_runs_witness :
  Forall tagged [rd "chr1" 10 "X"; rd "chr1" 10 "Y"; rd "chr1" 500 "X"] /\
  exists runs,
    concat runs
    = filter (has_barcode "X") [rd "chr1" 10 "X"; rd "chr1" 10 "Y"; rd "chr1" 500 "X"] /\
    Forall (fun g => g <> []) runs /\
    Forall (chained 50) runs /\
    broken 50 runs /\
    Forall2 (fun m g => close "X" (map coords_of g) = inr m)
      (filter (is_barcode "X")
         (fst (get_gemcode_regions
                 [rd "chr1" 10 "X"; rd "chr1" 10 "Y"; rd "chr1" 500 "X"] 50))) runs.
Proof.
  assert (Ht : Forall tagged [rd "chr1" 10 "X"; rd "chr1" 10 "Y"; rd "chr1" 500 "X"])
    by (repeat constructor; discriminate).
  split; [exact Ht | exact (barcode_runs _ 50 "X" Ht)].
Defined.

(** ** The interval of a molecule *)

Lemma split_runs_spec (dist : Z) (l : list read) :
  concat (split_runs dist l) = l /\
  Forall (fun g => g <> []) (split_runs dist l) /\
  Forall (chained dist) (split_runs dist l) /\
  broken dist (split_runs dist l).
Proof.
  destruct l as [|r l]; simpl.
  - repeat split; constructor.
  - destruct (runs_from_spec dist l [r] r) as (H1 & H2 & H3 & H4 & _);
      [discriminate | reflexivity | exact I |].
    now repeat split.
Qed.

(** C2. Interval correctness. The runs that the code folds are, for each
    barcode, the consecutive pieces of the sequence of the reads of that
    barcode cut where a read fails the continuity test against the read
    before it; the molecules of the barcode, in the order yielded, are the
    summaries of these runs, one for one.  Every molecule has start <= end,
    its start is the least and its end the greatest of the positions of
    exactly the reads of its run, and its readcount is their number; a run
    of a single read gives start = end = the position of that read and
    readcount 1, and so a barcode carried by exactly one read of the input
    has exactly one molecule, with start = end and readcount 1. *)
Theorem interval_correctness (ibam : list read) (dist : Z) :
  Forall tagged ibam ->
  exists ms,
    get_gemcode_regions ibam dist = (ms, None) /\
    forall b,
    exists runs,
      concat runs = filter (has_barcode b) ibam /\
      Forall (fun g => g <> []) runs /\
      Forall (chained dist) runs /\
      broken dist runs /\
      Forall2 (fun m g =>
        close b (map coords_of g) = inr m /\
        m_start m <= m_end m /\
        In (m_start m) (map reference_start g) /\
        In (m_end m) (map reference_start g) /\
        (forall r, In r g -> m_start m <= reference_start r <= m_end m) /\
        readcount m = length g /\
        (forall r, g = [r] ->
           m_start m = reference_start r /\ m_end m = reference_start r /\
           readcount m = 1%nat)) (filter (is_barcode b) ms) runs /\
      (forall r, filter (has_barcode b) ibam = [r] ->
         filter (is_barcode b) ms
         = [mk_molecule (reference_name r) (reference_start r) (reference_start r) b 1]).
Proof.
  intros Ht. destruct (regions_partition dist ibam Ht) as (ms & gs & Hr & _).
  exists ms. split; [exact Hr|]. intros b.
  pose proof (regions_split_runs dist b ibam Ht) as Hf. rewrite Hr in Hf. simpl fst in Hf.
  destruct (split_runs_spec dist (filter (has_barcode b) ibam)) as (H1 & H2 & H3 & H4).
  exists (split_runs dist (filter (has_barcode b) ibam)).
  split; [exact H1 | split; [exact H2 | split; [exact H3 | split; [exact H4 | split]]]].
  - eapply Forall2_impl; [|exact Hf]. intros m g Hm. split; [exact Hm|].
    exact (summarises_interval m (b, g) Hm).
  - intros r Hl. rewrite Hl in Hf. simpl in Hf.
    inversion Hf as [|m g ms' gs' Hm Hnil]; subst. inversion Hnil; subst.
    simpl in Hm. now injection Hm as <-.
Qed.

Lemma interval_correctness_witness :
  Forall tagged [rd "chr1" 10 "A"; rd "chr1" 20 "B"; rd "chr1" 30 "A"; rd "chr1" 40 "B"] /\
  exists ms,
    get_gemcode_regions
      [rd "chr1" 10 "A"; rd "chr1" 20 "B"; rd "chr1" 30 "A"; rd "chr1" 40 "B"] 50
    = (ms, None) /\
    forall b,
    exists runs,
      concat runs
      = filter (has_barcode b)
          [rd "chr1" 10 "A"; rd "chr1" 20 "B"; rd "chr1" 30 "A"; rd "chr1" 40 "B"] /\
      Forall (fun g => g <> []) runs /\
      Forall (chained 50) runs /\
      broken 50 runs /\
      Forall2 (fun m g =>
        close b (map coords_of g) = inr m /\
        m_start m <= m_end m /\
        In (m_start m) (map reference_start g) /\
        In (m_end m) (map reference_start g) /\
        (forall r, In r g -> m_start m <= reference_start r <= m_end m) /\
        readcount m = length g /\
        (forall r, g = [r] ->
           m_start m = reference_start r /\ m_end m = reference_start r /\
           readcount m = 1%nat)) (filter (is_barcode b) ms) runs /\
      (forall r,
         filter (has_barcode b)
           [rd "chr1" 10 "A"; rd "chr1" 20 "B"; rd "chr1" 30 "A"; rd "chr1" 40 "B"] = [r] ->
         filter (is_barcode b) ms
         = [mk_molecule (reference_name r) (reference_start r) (reference_start r) b 1]).
Proof.
  assert (Ht : Forall tagged
                 [rd "chr1" 10 "A"; rd "chr1" 20 "B"; rd "chr1" 30 "A"; rd "chr1" 40 "B"])
    by (repeat constructor; discriminate).
  split; [exact Ht | exact (interval_correctness _ 50 Ht)].
Defined.

(** ** Reads in the order of their coordinates *)

Lemma StronglySorted_app_inv (l1 l2 : list Z) :
  StronglySorted Z.le (l1 ++ l2) ->
  StronglySorted Z.le l1 /\ StronglySorted Z.le l2 /\
  forall a b, In a l1 -> In b l2 -> a <= b.
Proof.
  induction l1 as [|x l1 IH]; simpl; intros H.
  - repeat split; [constructor | exact H | contradiction].
  - apply StronglySorted_inv in H as [Hs Hx]. destruct (IH Hs) as (H1 & H2 & H3).
    apply Forall_app in Hx as [Hx1 Hx2]. repeat split.
    + now constructor.
    + exact H2.
    + intros a b [<-|Ha] Hb; [|now apply H3].
      rewrite Forall_forall in Hx2. now apply Hx2.
Qed.

(** A chained run of reads in the order of their coordinates: its least
    position is that of its first read, its greatest that of its last, and
    they are at most [dist] times the number of steps apart. *)
Lemma chain_facts (dist : Z) :
  forall rest x,
  chained dist (x :: rest) ->
  StronglySorted Z.le (map reference_start (x :: rest)) ->
  exists y,
    In y (x :: rest) /\
    last_item (map coords_of (x :: rest)) = Some (coords_of y) /\
    reference_name y = reference_name x /\
    fold_left Z.min (map reference_start rest) (reference_start x) = reference_start x /\
    fold_left Z.max (map reference_start rest) (reference_start x) = reference_start y /\
    reference_start y - reference_start x <= dist * Z.of_nat (length rest).
Proof.
  induction rest as [|z rest IH]; intros x Hc Hs.
  - exists x. simpl. repeat split; auto. lia.
  - destruct Hc as [D Hc]. apply discontinuous_false in D as [Dc Dp]. simpl in Dc, Dp.
    pose proof Hs as Hs0.
    simpl in Hs. apply StronglySorted_inv in Hs as [Hs Hx].
    inversion Hx as [|? ? Hxz Hx']; subst.
    destruct (IH z Hc Hs) as (y & Hin & Hl & Hn & _ & Hmax & Hgap).
    exists y. split; [now right | split; [exact Hl | split; [congruence | split; [|split]]]].
    + destruct (fold_min_spec (map reference_start (z :: rest)) (reference_start x))
        as [Hi Hle].
      assert (H1 : fold_left Z.min (map reference_start (z :: rest)) (reference_start x)
                   <= reference_start x) by (apply Hle; now left).
      destruct Hi as [Hi|Hi]; [now rewrite <- Hi|].
      rewrite Forall_forall in Hx. specialize (Hx _ Hi). lia.
    + simpl. rewrite Z.max_r by exact Hxz. exact Hmax.
    + simpl length. rewrite Nat2Z.inj_succ. nia.
Qed.

Lemma run_summary (dist : Z) (b : string) (g : list read) (m : molecule) :
  g <> [] -> chained dist g -> StronglySorted Z.le (map reference_start g) ->
  close b (map coords_of g) = inr m ->
  exists x y,
    hd_error g = Some x /\ In y g /\
    last_item (map coords_of g) = Some (coords_of y) /\
    m_chr m = reference_name x /\ reference_name y = reference_name x /\
    m_start m = reference_start x /\ m_end m = reference_start y /\
    m_end m - m_start m <= dist * (Z.of_nat (readcount m) - 1).
Proof.
  destruct g as [|x rest]; [congruence|]. intros _ Hc Hs Hm.
  destruct (chain_facts dist rest x Hc Hs) as (y & Hin & Hl & Hn & Hmin & Hmax & Hgap).
  simpl in Hm. rewrite map_map in Hm.
  change (fun r => pos (coords_of r)) with reference_start in Hm.
  rewrite Hmin, Hmax in Hm. injection Hm as <-.
  cbn [m_chr m_start m_end readcount hd_error].
  exists x, y. rewrite length_map.
  split; [reflexivity | split; [exact Hin | split; [exact Hl|]]].
  split; [reflexivity | split; [exact Hn | split; [reflexivity | split; [reflexivity|]]]].
  cbn [length]. rewrite Nat2Z.inj_succ. lia.
Qed.

Lemma runs_sorted (dist : Z) (b : string) :
  forall runs ms,
  Forall2 (fun m g => close b (map coords_of g) = inr m) ms runs ->
  Forall (fun g => g <> []) runs -> Forall (chained dist) runs -> broken dist runs ->
  StronglySorted Z.le (map reference_start (concat runs)) ->
  Forall (fun m => m_end m - m_start m <= dist * (Z.of_nat (readcount m) - 1)) ms /\
  separated dist ms.
Proof.
  intros runs ms H. induction H as [|m g ms runs Hm Hf IH]; intros Hne Hc Hb Hs.
  - split; [constructor | exact I].
  - inversion Hne as [|? ? Hg Hne']; inversion Hc as [|? ? Hcg Hc']; subst.
    simpl in Hs. rewrite map_app in Hs.
    apply StronglySorted_app_inv in Hs as (Hs1 & Hs2 & Hcross).
    destruct (run_summary dist b g m Hg Hcg Hs1 Hm)
      as (x & y & Hx & Hy & Hl & Hchr & Hn & Hst & Hen & Hspan).
    assert (Hb' : broken dist runs).
    { destruct runs as [|g' runs']; [exact I|]. now destruct Hb. }
    destruct (IH Hne' Hc' Hb' Hs2) as [IH1 IH2].
    split; [now constructor|].
    destruct Hf as [|m' g' ms' runs' Hm' Hf']; [exact I|].
    split; [|exact IH2].
    inversion Hne' as [|? ? Hg' _]; inversion Hc' as [|? ? Hcg' _]; subst.
    simpl in Hs2. rewrite map_app in Hs2.
    destruct (StronglySorted_app_inv _ _ Hs2) as (Hs1' & _ & _).
    destruct (run_summary dist b g' m' Hg' Hcg' Hs1' Hm')
      as (x' & y' & Hx' & _ & _ & Hchr' & _ & Hst' & _ & _).
    destruct Hb as [(x0 & y0 & Hl0 & Hh0 & D) _].
    assert (Hxy : coords_of y = coords_of x0) by congruence.
    rewrite Hx' in Hh0. injection Hh0 as <-.
    rewrite <- Hxy in D. apply discontinuous_true in D. simpl in D.
    assert (Hle : reference_start y <= reference_start x').
    { apply Hcross; [now apply in_map|]. simpl. rewrite map_app. apply in_or_app. left.
      apply in_map. destruct g'; [discriminate|]. injection Hx' as ->. now left. }
    rewrite Hen, Hst', Hchr, Hchr'. split; [exact Hle|].
    intros Heq. destruct D as [D|D]; [congruence | lia].
Qed.

(** When the reads of a barcode come in the order of their coordinates, the
    molecules of that barcode span at most [dist] for each read after the
    first, and they come in the order of the genome without overlap: each
    ends no later than the next starts, and more than [dist] before it when
    both are on the same reference. *)
Theorem sorted_molecules (ibam : list read) (dist : Z) (b : string) :
  Forall tagged ibam ->
  Sorted Z.le (map reference_start (filter (has_barcode b) ibam)) ->
  Forall (fun m => m_end m - m_start m <= dist * (Z.of_nat (readcount m) - 1))
         (filter (is_barcode b) (fst (get_gemcode_regions ibam dist))) /\
  separated dist (filter (is_barcode b) (fst (get_gemcode_regions ibam dist))).
Proof.
  intros Ht Hs.
  apply Sorted_StronglySorted in Hs; [|exact Z.le_trans].
  pose proof (regions_split_runs dist b ibam Ht) as Hf.
  apply (runs_sorted dist b _ _ Hf).
  - destruct (filter (has_barcode b) ibam) as [|r l]; [constructor|].
    now destruct (runs_from_spec dist l [r] r) as (_ & H2 & _);
      [discriminate | reflexivity | exact I |].
  - destruct (filter (has_barcode b) ibam) as [|r l]; [constructor|].
    now destruct (runs_from_spec dist l [r] r) as (_ & _ & H3 & _);
      [discriminate | reflexivity | exact I |].
  - destruct (filter (has_barcode b) ibam) as [|r l]; [exact I|].
    now destruct (runs_from_spec dist l [r] r) as (_ & _ & _ & H4 & _);
      [discriminate | reflexivity | exact I |].
  - destruct (filter (has_barcode b) ibam) as [|r l]; [constructor|].
    destruct (runs_from_spec dist l [r] r) as (H1 & _);
      [discriminate | reflexivity | exact I |].
    simpl split_runs. now rewrite H1.
Qed.

Lemma sorted_molecules_witness :
  Forall tagged [rd "chr1" 10 "X"; rd "chr1" 20 "Y"; rd "chr1" 40 "X"; rd "chr1" 500 "X"] /\
  Sorted Z.le
    (map reference_start
       (filter (has_barcode "X")
          [rd "chr1" 10 "X"; rd "chr1" 20 "Y"; rd "chr1" 40 "X"; rd "chr1" 500 "X"])) /\
  Forall (fun m => m_end m - m_start m <= 50 * (Z.of_nat (readcount m) - 1))
    (filter (is_barcode "X")
       (fst (get_gemcode_regions
               [rd "chr1" 10 "X"; rd "chr1" 20 "Y"; rd "chr1" 40 "X"; rd "chr1" 500 "X"] 50))) /\
  separated 50
    (filter (is_barcode "X")
       (fst (get_gemcode_regions
               [rd "chr1" 10 "X"; rd "chr1" 20 "Y"; rd "chr1" 40 "X"; rd "chr1" 500 "X"] 50))).
Proof.
  assert (Ht : Forall tagged
                 [rd "chr1" 10 "X"; rd "chr1" 20 "Y"; rd "chr1" 40 "X"; rd "chr1" 500 "X"])
    by (repeat constructor; discriminate).
  assert (Hs : Sorted Z.le
    (map reference_start
       (filter (has_barcode "X")
          [rd "chr1" 10 "X"; rd "chr1" 20 "Y"; rd "chr1" 40 "X"; rd "chr1" 500 "X"]))).
  { simpl. repeat constructor; simpl; lia. }
  split; [exact Ht | split; [exact Hs | exact (sorted_molecules _ 50 "X" Ht Hs)]].
Defined.

(** ** A greater distance *)

Lemma lasts_get (g : string) (d : gemcodes_t) :
  dict_get g (lasts d) = option_map last_item (dict_get g d).
Proof.
  induction d as [|[k w] d IH]; simpl; [reflexivity|]. now destruct (String.eqb k g).
Qed.

Lemma lasts_set (g : string) (v : list coords) (d : gemcodes_t) :
  lasts (dict_set g v d) = dict_set g (last_item v) (lasts d).
Proof.
  induction d as [|[k w] d IH]; simpl; [reflexivity|].
  destruct (String.eqb k g); simpl; [reflexivity | now rewrite IH].
Qed.

Lemma flush_length (d : gemcodes_t) :
  Forall (fun e => snd e <> []) d -> length (fst (flush d)) = length d.
Proof.
  induction 1 as [|[gem run] d Hrun Hd IH]; simpl; [reflexivity|].
  destruct (close_nonempty gem run Hrun) as [m ->].
  destruct (flush d) as [ys res]. simpl in *. now rewrite IH.
Qed.

Lemma regions_from_exn (dist : Z) (d : gemcodes_t) (r : read) (ibam : list read) (e : exn) :
  step dist d r = inl e -> regions_from dist d (r :: ibam) = ([], Some e).
Proof. intros H. unfold regions_from. simpl. now rewrite H. Qed.

Lemma discontinuous_antitone (dist dist' : Z) (l : coords) (r : read) :
  dist <= dist' -> discontinuous dist' l r = true -> discontinuous dist l r = true.
Proof.
  intros Hle H. apply discontinuous_true in H. apply discontinuous_true.
  destruct H; [now left | right; lia].
Qed.

(** An iteration under two thresholds, from dictionaries with the same keys
    and the same last entry under every key. *)
Lemma step_antitone (dist dist' : Z) (d d' : gemcodes_t) (r : read) :
  dist <= dist' -> lasts d = lasts d' ->
  Forall (fun e => snd e <> []) d -> Forall (fun e => snd e <> []) d' ->
  (step dist d r = inl KeyError /\ step dist' d' r = inl KeyError) \/
  exists gem v v' out out',
    step dist d r = inr (dict_set gem v d, out) /\
    step dist' d' r = inr (dict_set gem v' d', out') /\
    last_item v = last_item v' /\ v <> [] /\ v' <> [] /\
    (length out' <= length out)%nat.
Proof.
  intros Hle Hl Hd Hd'. unfold step. destruct (RX r) as [gem|]; [right | now left].
  pose proof (lasts_get gem d) as H1. pose proof (lasts_get gem d') as H2.
  rewrite Hl, H2 in H1.
  destruct (dict_get gem d) as [run|] eqn:E; destruct (dict_get gem d') as [run'|] eqn:E';
    try discriminate.
  - simpl in H1. injection H1 as H1.
    assert (Hrun : run <> []).
    { rewrite Forall_forall in Hd. apply (Hd (gem, run)). now apply dict_get_In. }
    assert (Hrun' : run' <> []).
    { rewrite Forall_forall in Hd'. apply (Hd' (gem, run')). now apply dict_get_In. }
    destruct (last_item_some run Hrun) as (l & Hlast & _). rewrite H1, Hlast.
    destruct (close_nonempty gem run Hrun) as [m ->].
    destruct (close_nonempty gem run' Hrun') as [m' ->].
    destruct (discontinuous dist' l r) eqn:D'.
    + rewrite (discontinuous_antitone dist dist' l r Hle D').
      exists gem, [coords_of r], [coords_of r], [m], [m'].
      repeat split; auto; try discriminate; try (simpl; lia).
    + destruct (discontinuous dist l r).
      * exists gem, [coords_of r], (run' ++ [coords_of r]), [m], [].
        rewrite last_item_app. repeat split; auto; try discriminate; try (simpl; lia); try (now destruct run); try (now destruct run').
      * exists gem, (run ++ [coords_of r]), (run' ++ [coords_of r]), [], [].
        rewrite !last_item_app. repeat split; auto; try discriminate; try (simpl; lia); try (now destruct run); try (now destruct run').
  - exists gem, [coords_of r], [coords_of r], [], [].
    repeat split; auto; try discriminate; try (simpl; lia).
Qed.

Lemma regions_antitone (dist dist' : Z) (ibam : list read) :
  dist <= dist' ->
  forall d d', lasts d = lasts d' ->
  Forall (fun e => snd e <> []) d -> Forall (fun e => snd e <> []) d' ->
  (length (fst (regions_from dist' d' ibam))
   <= length (fst (regions_from dist d ibam)))%nat.
Proof.
  intros Hle. induction ibam as [|r ibam IH]; intros d d' Hl Hd Hd'.
  - unfold regions_from. simpl.
    pose proof (flush_length d Hd) as H1. pose proof (flush_length d' Hd') as H2.
    destruct (flush d) as [ys res]; destruct (flush d') as [ys' res']. simpl in *.
    rewrite H1, H2. apply (f_equal (@length _)) in Hl. unfold lasts in Hl.
    rewrite !length_map in Hl. lia.
  - destruct (step_antitone dist dist' d d' r Hle Hl Hd Hd')
      as [[H1 H2] | (gem & v & v' & out & out' & H1 & H2 & Hv & Hne & Hne' & Hout)].
    + rewrite (regions_from_exn _ _ _ _ _ H1), (regions_from_exn _ _ _ _ _ H2). simpl. lia.
    + rewrite (regions_from_cons _ _ _ _ _ _ H1), (regions_from_cons _ _ _ _ _ _ H2).
      simpl. rewrite !length_app.
      assert (Hl' : lasts (dict_set gem v d) = lasts (dict_set gem v' d')).
      { now rewrite !lasts_set, Hl, Hv. }
      specialize (IH _ _ Hl' (Forall_dict_set _ _ _ _ Hd Hne)
                    (Forall_dict_set _ _ _ _ Hd' Hne')).
      lia.
Qed.

(** Raising the partitioning distance never gives more molecules: on the
    same input, a greater [dist] yields at most as many molecules. *)
Theorem dist_antitone (ibam : list read) (dist dist' : Z) :
  dist <= dist' ->
  (length (fst (get_gemcode_regions ibam dist'))
   <= length (fst (get_gemcode_regions ibam dist)))%nat.
Proof.
  intros Hle. unfold get_gemcode_regions.
  apply (regions_antitone dist dist' ibam Hle); [reflexivity | constructor | constructor].
Qed.

Lemma dist_antitone_witness :
  50 <= 1000 /\
  (length (fst (get_gemcode_regions
                  [rd "chr1" 100 "AA"; rd "chr1" 140 "AA"; rd "chr1" 300 "AA"] 1000))
   <= length (fst (get_gemcode_regions
                     [rd "chr1" 100 "AA"; rd "chr1" 140 "AA"; rd "chr1" 300 "AA"] 50)))%nat.
Proof.
  assert (H : 50 <= 1000) by lia.
  split; [exact H | exact (dist_antitone _ 50 1000 H)].
Defined.

(** ** The lines written *)

Lemma split_tab (a b x y : string) :
  has_tab a = false -> has_tab b = false ->
  (a ++ tab ++ x)%string = (b ++ tab ++ y)%string -> a = b /\ x = y.
Proof.
  revert b. induction a as [|c a IH]; intros [|c' b] Ha Hb H; simpl in *.
  - injection H as ->. now split.
  - injection H as <- _. apply orb_false_iff in Hb as [Hb _]. discriminate.
  - injection H as -> _. apply orb_false_iff in Ha as [Ha _]. discriminate.
  - injection H as -> H. apply orb_false_iff in Ha as [_ Ha].
    apply orb_false_iff in Hb as [_ Hb]. destruct (IH b Ha Hb H) as [-> ->]. now split.
Qed.

Lemma append_newline_inj (s s' : string) :
  (s ++ newline)%string = (s' ++ newline)%string -> s = s'.
Proof.
  revert s'. induction s as [|c s IH]; intros [|c' s'] H; simpl in *.
  - reflexivity.
  - injection H as _ H. now destruct s'.
  - injection H as _ H. now destruct s.
  - injection H as -> H. now rewrite (IH s' H).
Qed.

Lemma uint_no_tab (d : Decimal.uint) : has_tab (NilEmpty.string_of_uint d) = false.
Proof. induction d; simpl; auto. Qed.

Lemma str_of_Z_no_tab (z : Z) : has_tab (str_of_Z z) = false.
Proof.
  unfold str_of_Z, NilZero.string_of_int, NilZero.string_of_uint.
  destruct (Z.to_int z) as [d|d]; destruct d; simpl; auto using uint_no_tab.
Qed.

Lemma to_int_not_nil (z : Z) :
  Z.to_int z <> Decimal.Pos Decimal.Nil /\ Z.to_int z <> Decimal.Neg Decimal.Nil.
Proof.
  destruct z as [|p|p]; simpl; split; try discriminate;
    intros [= H]; now apply (Unsigned.to_uint_nonnil p).
Qed.

(** [str] of an int can be read back. *)
Lemma str_of_Z_inj (z z' : Z) : str_of_Z z = str_of_Z z' -> z = z'.
Proof.
  unfold str_of_Z. intros H. apply DecimalZ.to_int_inj.
  destruct (to_int_not_nil z) as [H1 H2]. destruct (to_int_not_nil z') as [H1' H2'].
  pose proof (NilZero.isi (Z.to_int z) H1 H2) as E.
  rewrite H, (NilZero.isi (Z.to_int z') H1' H2') in E. now injection E.
Qed.

(** The lines of the output file can be told apart: two molecules whose
    reference names and barcodes hold no tab and that [main] writes as the
    same line are the same molecule. *)
Theorem bed_line_injective (m m' : molecule) :
  has_tab (m_chr m) = false -> has_tab (barcode m) = false ->
  has_tab (m_chr m') = false -> has_tab (barcode m') = false ->
  (bed_str m ++ newline)%string = (bed_str m' ++ newline)%string ->
  m = m'.
Proof.
  intros Hc Hb Hc' Hb' H. apply append_newline_inj in H. unfold bed_str in H.
  destruct m as [c s e b n]; destruct m' as [c' s' e' b' n']; simpl in *.
  apply split_tab in H as [-> H]; [|exact Hc | exact Hc'].
  apply split_tab in H as [Hs H]; [|apply str_of_Z_no_tab | apply str_of_Z_no_tab].
  apply split_tab in H as [He H]; [|apply str_of_Z_no_tab | apply str_of_Z_no_tab].
  apply split_tab in H as [-> Hn]; [|exact Hb | exact Hb'].
  apply str_of_Z_inj in Hs, He, Hn. apply Nat2Z.inj in Hn. now subst.
Qed.

Lemma bed_line_injective_witness :
  mk_molecule "chr1" 100 140 "AA" 2 = mk_molecule "chr1" 100 140 "AA" 2.
Proof.
  apply (bed_line_injective (mk_molecule "chr1" 100 140 "AA" 2)
           (mk_molecule "chr1" 100 140 "AA" 2)); reflexivity.
Defined.

(** ** Counting the molecules of a barcode *)

Lemma runs_from_length (dist : Z) (l : list read) :
  forall cur prev, length (runs_from dist cur prev l) = S (breaks dist prev l).
Proof.
  induction l as [|r l IH]; intros cur prev; simpl; [reflexivity|].
  destruct (discontinuous dist (coords_of prev) r); simpl; now rewrite IH.
Qed.

(** A barcode has one molecule, and one more for every read of the barcode
    that fails the continuity test against the read of the barcode before
    it; a barcode without read has none. *)
Theorem molecules_per_barcode (ibam : list read) (dist : Z) (b : string) :
  Forall tagged ibam ->
  length (filter (is_barcode b) (fst (get_gemcode_regions ibam dist)))
  = match filter (has_barcode b) ibam with
    | [] => 0%nat
    | r :: l => S (breaks dist r l)
    end.
Proof.
  intros Ht. pose proof (regions_split_runs dist b ibam Ht) as Hf.
  apply Forall2_length in Hf. rewrite Hf.
  destruct (filter (has_barcode b) ibam) as [|r l]; [reflexivity|].
  apply runs_from_length.
Qed.

Lemma molecules_per_barcode_witness :
  Forall tagged [rd "chr1" 10 "X"; rd "chr1" 10 "Y"; rd "chr2" 10 "X"; rd "chr2" 900 "X"] /\
  length (filter (is_barcode "X")
            (fst (get_gemcode_regions
                    [rd "chr1" 10 "X"; rd "chr1" 10 "Y"; rd "chr2" 10 "X"; rd "chr2" 900 "X"]
                    50)))
  = match filter (has_barcode "X")
            [rd "chr1" 10 "X"; rd "chr1" 10 "Y"; rd "chr2" 10 "X"; rd "chr2" 900 "X"] with
    | [] => 0%nat
    | r :: l => S (breaks 50 r l)
    end.
Proof.
  assert (Ht : Forall tagged
                 [rd "chr1" 10 "X"; rd "chr1" 10 "Y"; rd "chr2" 10 "X"; rd "chr2" 900 "X"])
    by (repeat constructor; discriminate).
  split; [exact Ht | exact (molecules_per_barcode _ 50 "X" Ht)].
Defined.

(** ** Molecules already yielded *)

(** What the generator has yielded after a part of the input does not depend
    on the reads that follow: on any longer input it yields the same
    molecules first, whether or not it ends with an exception. *)
Theorem yielded_is_final (pre post : list read) (dist : Z) :
  exists later,
    fst (get_gemcode_regions (pre ++ post) dist)
    = fst (for_reads dist [] pre) ++ later.
Proof.
  unfold get_gemcode_regions, regions_from. rewrite for_reads_app.
  destruct (for_reads dist [] pre) as [ys [e|d]]; simpl.
  - exists []. now rewrite app_nil_r.
  - destruct (for_reads dist d post) as [zs [e|d']]; simpl.
    + now exists zs.
    + destruct (flush d') as [fs res]. simpl. exists (zs ++ fs). now rewrite app_assoc.
Qed.
